(** * spaCy: the English pipeline ([spacy/en/__init__.py])

    A shallow embedding of [get_lex_props] and of the [English] class
    (constructor, lazy stage properties, [__call__]) together with the
    properties its specification states about them.

    - Python values: the keyword arguments of [__call__] are compared with
      [==] and truth-tested, so they are values of [pyval] with Python's
      equality ([True == 1]) and truthiness, not booleans.
    - Python strings are modelled by [string]; one [ascii] is one character.
    - Effects: a state, exception and log monad [M] over the instance, the
      heap of [Tokens] objects and a ghost log of events. Buffers are
      references into the heap, stage engines have identities, so that
      "the same object" can be stated.
    - Collaborators that live in other modules of the package ([get_flags],
      [orth.word_shape], the tokenizer, the stage engines, the file system)
      are section variables. Inside [__call__] they are taken to return;
      the lazy properties are also given with constructors that can raise
      (module [Lazy]).

    Definitions come first, properties second. *)

From Stdlib Require Import ZArith Ascii String Lia.
From stdpp Require Import base option list strings gmap fin_maps.

Local Open Scope nat_scope.

(** ** Python values and exceptions *)

(** The values that reach the keyword arguments of [__call__] and the
    slots of the dictionary built by [get_lex_props]. *)
Inductive pyval : Type :=
  | PyNone
  | PyBool (b : bool)
  | PyInt (z : Z)
  | PyStr (s : string).

(** [bool] is a subclass of [int]: [True == 1], [False == 0]. *)
Definition as_int (v : pyval) : option Z :=
  match v with
  | PyBool b => Some (Z.b2z b)
  | PyInt z => Some z
  | _ => None
  end.

(** Python's [==] on these values. *)
Definition py_eq (a b : pyval) : bool :=
  match a, b with
  | PyNone, PyNone => true
  | PyStr s, PyStr t => String.eqb s t
  | _, _ =>
      match as_int a, as_int b with
      | Some x, Some y => (x =? y)%Z
      | _, _ => false
      end
  end.

(** Truth value testing, as done by [if v], [v and w]. *)
Definition truthy (v : pyval) : bool :=
  match v with
  | PyNone => false
  | PyBool b => b
  | PyInt z => negb (z =? 0)%Z
  | PyStr s => negb (String.eqb s "")
  end.

Definition py_True : pyval := PyBool true.
Definition py_False : pyval := PyBool false.

(** Module-level constant [parse_if_model_present = -1]. *)
Definition parse_if_model_present : pyval := PyInt (-1).

Inductive exn : Type :=
  | ValueError (msg : string)
  | IOError (msg : string)
  | IndexError (msg : string)
  | TypeError (msg : string).

Inductive result (A : Type) : Type :=
  | Ok (a : A)
  | Raise (e : exn).
Arguments Ok {A} a.
Arguments Raise {A} e.

Definition is_ok {A} (r : result A) : bool :=
  match r with Ok _ => true | Raise _ => false end.

(** ** Python string operations used by [get_lex_props] *)

Module PyStr.

Local Open Scope Z_scope.

Definition len (s : string) : Z := Z.of_nat (String.length s).

(** [s[i]]: negative indices count from the end; out of range raises. *)
Definition index (s : string) (i : Z) : result string :=
  let j := if i <? 0 then len s + i else i in
  if (j <? 0) || (len s <=? j) then Raise (IndexError "string index out of range")
  else match String.get (Z.to_nat j) s with
       | Some c => Ok (String c EmptyString)
       | None => Raise (IndexError "string index out of range")
       end.

(** [s[i:]]: the start is clipped to the string, never raises. *)
Definition slice_from (s : string) (i : Z) : string :=
  let j := if i <? 0 then Z.max 0 (len s + i) else Z.min i (len s) in
  String.substring (Z.to_nat j) (String.length s - Z.to_nat j)%nat s.

Definition is_upper (c : ascii) : bool :=
  let n := Z.of_nat (nat_of_ascii c) in
  ((65 <=? n) && (n <=? 90)) || ((192 <=? n) && (n <=? 222) && negb (n =? 215)).

Definition lower_char (c : ascii) : ascii :=
  if is_upper c then ascii_of_nat (nat_of_ascii c + 32) else c.

(** [s.lower()] on the characters below U+0100: one character each. *)
Fixpoint lower (s : string) : string :=
  match s with
  | EmptyString => EmptyString
  | String c r => String (lower_char c) (lower r)
  end.

End PyStr.

(** ** [get_lex_props] *)

Section LexProps.

(** [attrs.get_flags] and [orth.word_shape], defined elsewhere in the
    package; both inspect the characters of a string and always return. *)
Variable get_flags : string -> Z.
Variable word_shape : string -> string.

(** The dictionary literal is evaluated entry by entry, in order; the
    only entry that can raise is ['prefix': string[0]]. *)
Definition get_lex_props (string : string) : result (gmap String.string pyval) :=
  match PyStr.index string 0 with
  | Raise e => Raise e
  | Ok prefix =>
      Ok (list_to_map
            [ ("flags", PyInt (get_flags string));
              ("length", PyInt (PyStr.len string));
              ("orth", PyStr string);
              ("lower", PyStr (PyStr.lower string));
              ("norm", PyStr string);
              ("shape", PyStr (word_shape string));
              ("prefix", PyStr prefix);
              ("suffix", PyStr (PyStr.slice_from string (-3)));
              ("cluster", PyInt 0);
              ("prob", PyInt 0);
              ("sentiment", PyInt 0) ])
  end.

End LexProps.

(** ** Token buffers

    The pipeline only passes a buffer along; what it needs of [spacy/tokens]
    is a type of buffer contents. *)

(** Modelled from the spec: the [Token] of section 3 (the class [Tokens]
    of [spacy/tokens] is missing): a surface form (standing for the
    reference to its lexical entry), the character span in the text (end
    exclusive) and four annotation slots, all unset after tokenization. *)
Record Token : Type := mkToken {
  orth : string;
  tok_start : nat;
  tok_end : nat;
  tag : option string;
  head : option nat;
  dep : option string;
  ent : option string
}.

(** The contents of a [Tokens] object: an ordered sequence of tokens. *)
Abbreviation Tokens := (list Token).

(** ** The [English] class *)

Inductive stage : Type := Tagger | Parser | Entity.

Global Instance stage_eq_dec : EqDecision stage.
Proof. solve_decision. Defined.

(** References to [Tokens] objects and identities of stage engines. *)
Abbreviation loc := positive (only parsing).
Abbreviation obj := nat (only parsing).

(** A ghost log: what an execution does that the properties below are
    about, in order. *)
Inductive event : Type :=
  | EvTokenize (text : string) (l : loc)   (* self.tokenizer(text) returned buffer l *)
  | EvAccess (s : stage)                   (* the property of stage s was read *)
  | EvConstruct (s : stage) (o : obj)      (* the constructor of stage s ran, giving o *)
  | EvReturn (s : stage) (o : obj)         (* the property of stage s returned o *)
  | EvRun (s : stage) (o : obj) (l : loc)  (* engine o was applied to buffer l *)
  | EvMerge (l : loc)                      (* self.mwe_merger(l) *)
  | EvRaised (s : stage).                  (* the constructor of stage s was called and raised *)

Global Instance event_eq_dec : EqDecision event.
Proof. solve_decision. Defined.

(** The attributes of an [English] instance that [__call__] and the
    properties read or write. The vocabulary and the tokenizer are fixed at
    construction and appear as section variables below. *)
Record English : Type := mkEnglish {
  _data_dir : option string;
  has_parser_model : bool;
  has_tagger_model : bool;
  has_entity_model : bool;
  mwe_merger : option obj;
  _tagger : option obj;
  _parser : option obj;
  _entity : option obj
}.

Definition slot (s : stage) (self : English) : option obj :=
  match s with
  | Tagger => _tagger self
  | Parser => _parser self
  | Entity => _entity self
  end.

Definition set_slot (s : stage) (o : option obj) (self : English) : English :=
  match s with
  | Tagger => mkEnglish (_data_dir self) (has_parser_model self) (has_tagger_model self)
                (has_entity_model self) (mwe_merger self) o (_parser self) (_entity self)
  | Parser => mkEnglish (_data_dir self) (has_parser_model self) (has_tagger_model self)
                (has_entity_model self) (mwe_merger self) (_tagger self) o (_entity self)
  | Entity => mkEnglish (_data_dir self) (has_parser_model self) (has_tagger_model self)
                (has_entity_model self) (mwe_merger self) (_tagger self) (_parser self) o
  end.

Definition has_model (s : stage) (self : English) : bool :=
  match s with
  | Tagger => has_tagger_model self
  | Parser => has_parser_model self
  | Entity => has_entity_model self
  end.

(** The part of the interpreter state the pipeline touches: the instance,
    the [Tokens] objects alive, and a counter naming new engines. *)
Record World : Type := mkWorld {
  self_ : English;
  heap : gmap loc Tokens;
  next_obj : obj
}.

(** *** A state, exception and log monad

    A raised exception keeps the state reached and the events emitted so
    far, as in Python. *)
Definition M (A : Type) : Type := World -> result A * World * list event.

Definition ret {A} (a : A) : M A := λ w, (Ok a, w, []).

Definition bind {A B} (m : M A) (k : A -> M B) : M B :=
  λ w, match m w with
       | (Ok a, w1, ev1) => let '(r, w2, ev2) := k a w1 in (r, w2, ev1 ++ ev2)
       | (Raise e, w1, ev1) => (Raise e, w1, ev1)
       end.

Definition raise {A} (e : exn) : M A := λ w, (Raise e, w, []).
Definition emit (e : event) : M unit := λ w, (Ok tt, w, [e]).
Definition get_self : M English := λ w, (Ok (self_ w), w, []).
Definition lift {A} (r : result A) : M A := λ w, (r, w, []).
Definition when (b : bool) (m : M unit) : M unit := if b then m else ret tt.

Global Instance M_ret : MRet M := @ret.
Global Instance M_bind : MBind M := λ A B k m, bind m k.

Definition result_of {A} (x : result A * World * list event) : result A := x.1.1.
Definition world_of {A} (x : result A * World * list event) : World := x.1.2.
Definition events_of {A} (x : result A * World * list event) : list event := x.2.

(** [os.path.join] with a relative second component. A [None] first
    component raises (TypeError in Python 3, AttributeError in Python 2). *)
Definition path_join (a : option string) (b : string) : result string :=
  match a with
  | None => Raise (TypeError "expected str, bytes or os.PathLike object, not NoneType")
  | Some a =>
      Ok (if String.eqb a "" then b
          else if String.eqb (PyStr.slice_from a (-1)) "/" then a +:+ b
          else a +:+ "/" +:+ b)
  end.

Definition nl : string := String (ascii_of_nat 10) EmptyString.

Section Pipeline.

(** Collaborators. *)
Variable LOCAL_DATA_DIR : string.               (* path.join(path.dirname(__file__), 'data') *)
Variable path_exists : string -> bool.          (* os.path.exists *)
Variable tokenizer : string -> Tokens.          (* contents of the buffer Tokenizer.__call__ builds *)
Variable engine : stage -> Tokens -> Tokens.    (* what a stage engine does to a buffer's contents *)
Variable merger : Tokens -> Tokens.             (* what RegexMerger.__call__ does to them *)

(** [English.__init__]. [read_lang_data] and the constructors of the
    vocabulary, the tokenizer and the merger are taken to return; [m] is
    the identity of the new [RegexMerger]. *)
Definition __init__ (data_dir : option string) (m : obj) : English :=
  let data_dir := match data_dir with
                  | Some d => if String.eqb d "" then Some LOCAL_DATA_DIR else Some d
                  | None => None
                  end in
  let present sub := match data_dir with
                     | None => false
                     | Some d => match path_join (Some d) sub with
                                 | Ok p => path_exists p
                                 | Raise _ => false
                                 end
                     end in
  {| _data_dir := data_dir;
     has_parser_model := present "deps";
     has_tagger_model := present "pos";
     has_entity_model := present "ner";
     mwe_merger := Some m;
     _tagger := None;
     _parser := None;
     _entity := None |}.

(** A constructor call [EnPosTagger(...)] / [Parser(...)] that returns: a
    new object. In [__call__] the constructors are taken to return; the
    module [Lazy] below has the properties with constructors that can
    raise. *)
Definition construct (s : stage) : M obj :=
  λ w, (Ok (next_obj w), mkWorld (self_ w) (heap w) (S (next_obj w)),
        [EvConstruct s (next_obj w)]).

Definition assign_slot (s : stage) (o : obj) : M unit :=
  λ w, (Ok tt, mkWorld (set_slot s (Some o) (self_ w)) (heap w) (next_obj w), []).

(** The three lazy properties, [self.tagger], [self.parser] and
    [self.entity]. The arguments of a constructor call are evaluated first,
    so [path.join] can raise before anything is built; after the assignment
    the slot read back by [return] holds the new object. *)
Definition self_tagger : M obj :=
  emit (EvAccess Tagger) ;;
  self ← get_self;
  o ← match _tagger self with
      | None =>
          o ← construct Tagger;
          assign_slot Tagger o ;;
          ret o
      | Some o => ret o
      end;
  emit (EvReturn Tagger o) ;;
  ret o.

Definition self_parser : M obj :=
  emit (EvAccess Parser) ;;
  self ← get_self;
  o ← match _parser self with
      | None =>
          _ ← lift (path_join (_data_dir self) "deps");
          o ← construct Parser;
          assign_slot Parser o ;;
          ret o
      | Some o => ret o
      end;
  emit (EvReturn Parser o) ;;
  ret o.

Definition self_entity : M obj :=
  emit (EvAccess Entity) ;;
  self ← get_self;
  o ← match _entity self with
      | None =>
          _ ← lift (path_join (_data_dir self) "ner");
          o ← construct Entity;
          assign_slot Entity o ;;
          ret o
      | Some o => ret o
      end;
  emit (EvReturn Entity o) ;;
  ret o.

Definition accessor (s : stage) : M obj :=
  match s with
  | Tagger => self_tagger
  | Parser => self_parser
  | Entity => self_entity
  end.

(** [self.tokenizer(text)]: a new [Tokens] object. *)
Definition tokenize (text : string) : M loc :=
  λ w, let l := fresh (dom (heap w)) in
       (Ok l, mkWorld (self_ w) (<[l := tokenizer text]> (heap w)) (next_obj w),
        [EvTokenize text l]).

(** [engine(tokens)]: the engine annotates the buffer it is handed; the
    value of the call expression is dropped by [__call__]. *)
Definition run (s : stage) (o : obj) (tokens : loc) : M unit :=
  λ w, (Ok tt, mkWorld (self_ w) (alter (engine s) tokens (heap w)) (next_obj w),
        [EvRun s o tokens]).

Definition merge (tokens : loc) : M unit :=
  λ w, (Ok tt, mkWorld (self_ w) (alter merger tokens (heap w)) (next_obj w),
        [EvMerge tokens]).

Definition msg_tag_parse : string :=
  "Incompatible arguments: tag=False, parse=True" +:+
  "Part-of-speech tags are required for parsing.".
Definition msg_tag_entity : string :=
  "Incompatible arguments: tag=False, entity=True" +:+
  "Part-of-speech tags are required for entity recognition.".
Definition msg_no_parser : string :=
  "Received parse=True, but parser model not found." +:+ nl +:+ nl +:+
  "Run:" +:+ nl +:+
  "$ python -m spacy.en.download" +:+ nl +:+
  "To install the model.".
Definition msg_no_entity : string :=
  "Received entity=True, but entity model not found." +:+ nl +:+ nl +:+
  "Run:" +:+ nl +:+
  "$ python -m spacy.en.download" +:+ nl +:+
  "To install the model.".

(** [English.__call__]. The [has_*_model] attributes are assigned in
    [__init__] only, so they are read once. *)
Definition __call__ (text : string) (tag parse entity merge_mwes : pyval) : M loc :=
  if py_eq parse py_True && py_eq tag py_False then raise (ValueError msg_tag_parse) else
  if py_eq entity py_True && py_eq tag py_False then raise (ValueError msg_tag_entity) else
  tokens ← tokenize text;
  self ← get_self;
  let parse :=
    if py_eq parse (PyInt (-1)) && py_eq tag py_False then py_False
    else if py_eq parse (PyInt (-1)) && negb (has_parser_model self) then py_False
    else parse in
  let entity :=
    if py_eq entity (PyInt (-1)) && py_eq tag py_False then py_False
    else if py_eq entity (PyInt (-1)) && negb (has_entity_model self) then py_False
    else entity in
  when (truthy tag && has_tagger_model self)
       (o ← self_tagger; run Tagger o tokens) ;;
  if py_eq parse py_True && negb (has_parser_model self)
  then raise (IOError msg_no_parser) else
  if py_eq entity py_True && negb (has_entity_model self)
  then raise (IOError msg_no_entity) else
  when (truthy parse && has_parser_model self)
       (o ← self_parser; run Parser o tokens) ;;
  when (truthy entity && has_entity_model self)
       (o ← self_entity; run Entity o tokens) ;;
  when (truthy merge_mwes && bool_decide (mwe_merger self ≠ None))
       (merge tokens) ;;
  ret tokens.

(** The [tags] property: [self.tagger.tag_names]; the attribute read on
    the engine is opaque, only the access to [self.tagger] is kept. *)
Definition tags : M obj := self_tagger.

End Pipeline.

(** *** Client programs

    What code holding an [English] instance can do with it: read one of
    the lazy properties, read [tags], or call the pipeline.  A client may
    catch an exception and go on, so a failed operation does not stop the
    program. *)
Inductive op : Type :=
  | OpGet (s : stage)
  | OpTags
  | OpCall (text : string) (tag parse entity merge_mwes : pyval).

Section Clients.

Variable tokenizer : string -> Tokens.
Variable engine : stage -> Tokens -> Tokens.
Variable merger : Tokens -> Tokens.

Definition do_op (o : op) : M unit :=
  match o with
  | OpGet s => accessor s ;; ret tt
  | OpTags => tags ;; ret tt
  | OpCall text tag parse entity merge_mwes =>
      __call__ tokenizer engine merger text tag parse entity merge_mwes ;; ret tt
  end.

Fixpoint run_ops (ops : list op) (w : World) : World * list event :=
  match ops with
  | [] => (w, [])
  | o :: rest =>
      let '(_, w1, ev1) := do_op o w in
      let '(w2, ev2) := run_ops rest w1 in
      (w2, ev1 ++ ev2)
  end.

End Clients.

(** *** Observations on event logs *)

Definition is_run (s : stage) (e : event) : bool :=
  match e with
  | EvRun s' _ _ => bool_decide (s' = s)
  | _ => false
  end.

Definition is_construct (s : stage) (e : event) : bool :=
  match e with
  | EvConstruct s' _ => bool_decide (s' = s)
  | _ => false
  end.

(** The engine of stage [s] was applied to a buffer. *)
Definition stage_ran (s : stage) (evs : list event) : bool := existsb (is_run s) evs.

(** How often the constructor of stage [s] ran. *)
Definition constructions (s : stage) (evs : list event) : nat :=
  length (List.filter (is_construct s) evs).

(** No buffer is made by [e], and a buffer [e] works on is [l]. *)
Definition on_buffer (l : loc) (e : event) : bool :=
  match e with
  | EvTokenize _ _ => false
  | EvRun _ _ l' => bool_decide (l' = l)
  | EvMerge l' => bool_decide (l' = l)
  | _ => true
  end.

Definition is_access (s : stage) (e : event) : bool :=
  match e with
  | EvAccess s' => bool_decide (s' = s)
  | _ => false
  end.

Definition is_return (s : stage) (e : event) : bool :=
  match e with
  | EvReturn s' _ => bool_decide (s' = s)
  | _ => false
  end.

(** The objects the property of stage [s] returned, in order. *)
Fixpoint returns (s : stage) (evs : list event) : list obj :=
  match evs with
  | [] => []
  | EvReturn s' o :: rest => if bool_decide (s' = s) then o :: returns s rest else returns s rest
  | _ :: rest => returns s rest
  end.

Definition all_same (os : list obj) : bool :=
  match os with
  | [] => true
  | o :: rest => forallb (Nat.eqb o) rest
  end.

(** Reading the log from its start, the constructor of stage [s] does not
    show up before an access to the property of [s] does. *)
Fixpoint accessed_before_constructed (s : stage) (evs : list event) : bool :=
  match evs with
  | [] => true
  | e :: rest =>
      if is_construct s e then false
      else if is_access s e then true
      else accessed_before_constructed s rest
  end.

(** *** Closed forms

    The value a request has once lines 167 to 174 have resolved "auto",
    and what a read of a lazy property that does not raise amounts to. *)
Definition resolve (tag v : pyval) (present : bool) : pyval :=
  if py_eq v (PyInt (-1)) && py_eq tag py_False then py_False
  else if py_eq v (PyInt (-1)) && negb present then py_False
  else v.

Definition applied (b : bool) (f : Tokens -> Tokens) (x : Tokens) : Tokens :=
  if b then f x else x.

Definition engine_of (s : stage) (w : World) : obj :=
  match slot s (self_ w) with
  | Some o => o
  | None => next_obj w
  end.

Definition after_access (s : stage) (w : World) : World :=
  match slot s (self_ w) with
  | Some _ => w
  | None => mkWorld (set_slot s (Some (next_obj w)) (self_ w)) (heap w) (S (next_obj w))
  end.

Definition access_events (s : stage) (w : World) : list event :=
  match slot s (self_ w) with
  | Some o => [EvAccess s; EvReturn s o]
  | None => [EvAccess s; EvConstruct s (next_obj w); EvReturn s (next_obj w)]
  end.

(** Reading the property of [s] in [w] gets past [path.join]. *)
Definition can_access (s : stage) (w : World) : bool :=
  bool_decide (s = Tagger) || bool_decide (slot s (self_ w) ≠ None)
  || bool_decide (_data_dir (self_ w) ≠ None).

(** One optional stage of [__call__], [if c: self.<s>(tokens)], when the
    property can be read: the state and the events it leaves. *)
Section Steps.

Variable engine : stage -> Tokens -> Tokens.
Variable merger : Tokens -> Tokens.

Definition step_world (c : bool) (s : stage) (l : loc) (w : World) : World :=
  if c then mkWorld (self_ (after_access s w)) (alter (engine s) l (heap w))
                    (next_obj (after_access s w))
  else w.

Definition step_events (c : bool) (s : stage) (l : loc) (w : World) : list event :=
  if c then access_events s w ++ [EvRun s (engine_of s w) l] else [].

Definition merge_world (c : bool) (l : loc) (w : World) : World :=
  if c then mkWorld (self_ w) (alter merger l (heap w)) (next_obj w) else w.

Definition merge_events (c : bool) (l : loc) : list event :=
  if c then [EvMerge l] else [].

(** The stages of [__call__] that follow the model checks. *)
Definition later_stages (cp ce cm : bool) (l : loc) : M loc :=
  when cp (accessor Parser ≫= λ o, run engine Parser o l) ≫= λ _,
  when ce (accessor Entity ≫= λ o, run engine Entity o l) ≫= λ _,
  when cm (merge merger l) ≫= λ _, ret l.

End Steps.

(** What [__init__] establishes: without a data directory no model is
    announced. *)
Definition consistent (self : English) : bool :=
  match _data_dir self with
  | Some _ => true
  | None => negb (has_parser_model self) && negb (has_tagger_model self)
            && negb (has_entity_model self)
  end.

(** The request [v] for a stage whose model presence is [present] trips
    neither the argument check nor the model check. *)
Definition request_passes (tag v : pyval) (present : bool) : bool :=
  negb (py_eq v py_True && (py_eq tag py_False || negb present)).

(** No token of the buffer carries a tag. *)
Definition untagged (b : Tokens) : bool :=
  forallb (λ t, bool_decide (tag t = None)) b.

(** *** Lazy construction

    What the log of an execution can hold about stage [s], given the slot
    of [s]: the invariant behind the lazy properties. *)
Definition lazy_inv (s : stage) (w : World) (L : list event) : Prop :=
  accessed_before_constructed s L = true
  ∧ (slot s (self_ w) ≠ None -> s = Tagger ∨ _data_dir (self_ w) ≠ None)
  ∧ match slot s (self_ w) with
    | None => constructions s L = 0 ∧ returns s L = []
    | Some o => constructions s L ≤ 1 ∧ Forall (λ o', o' = o) (returns s L)
    end.

(** The attributes that only [__init__] assigns. *)
Definition config (self : English) : option string * bool * bool * bool * option obj :=
  (_data_dir self, has_parser_model self, has_tagger_model self, has_entity_model self,
   mwe_merger self).

(** A piece of execution from [w] to [w'] with events [ev] keeps it, and
    leaves the configuration alone. *)
Definition keeps (s : stage) (w w' : World) (ev : list event) : Prop :=
  config (self_ w') = config (self_ w)
  ∧ ∀ L, lazy_inv s w L -> lazy_inv s w' (L ++ ev).

(** A program keeps it from whatever state it is run in. *)
Definition preserves (s : stage) {A} (m : M A) : Prop :=
  ∀ w, keeps s w (world_of (m w)) (events_of (m w)).

(** No event of [evs] is a construction of, or a return from, stage [s]. *)
Definition quiet (s : stage) (evs : list event) : bool :=
  forallb (λ e, negb (is_construct s e) && negb (is_return s e)) evs.

(** *** The lazy properties when a constructor can raise

    [EnPosTagger(...)] and [Parser(...)] load a model from the data
    directory, and a constructor that reads files can raise. Whether a
    constructor call returns is up to the environment at the time of the
    call, so a read of a property is given the outcome [k] that its
    constructor call has, should it make one. With [Built] the three
    properties below are [self_tagger], [self_parser] and [self_entity]. *)
Inductive built : Type :=
  | Built              (* the constructor returns a new object *)
  | Fails (e : exn).   (* the constructor raises e *)

Module Lazy.

Definition construct (k : built) (s : stage) : M obj :=
  match k with
  | Built => construct s
  | Fails e => emit (EvRaised s) ;; raise e
  end.

(** Lines 106 to 110. When the constructor raises, the assignment to
    [self._tagger] is not reached and the slot stays [None]. *)
Definition tagger (k : built) : M obj :=
  emit (EvAccess Tagger) ;;
  self ← get_self;
  o ← match _tagger self with
      | None =>
          o ← construct k Tagger;
          assign_slot Tagger o ;;
          ret o
      | Some o => ret o
      end;
  emit (EvReturn Tagger o) ;;
  ret o.

(** Lines 112 to 118. *)
Definition parser (k : built) : M obj :=
  emit (EvAccess Parser) ;;
  self ← get_self;
  o ← match _parser self with
      | None =>
          _ ← lift (path_join (_data_dir self) "deps");
          o ← construct k Parser;
          assign_slot Parser o ;;
          ret o
      | Some o => ret o
      end;
  emit (EvReturn Parser o) ;;
  ret o.

(** Lines 120 to 126. *)
Definition entity (k : built) : M obj :=
  emit (EvAccess Entity) ;;
  self ← get_self;
  o ← match _entity self with
      | None =>
          _ ← lift (path_join (_data_dir self) "ner");
          o ← construct k Entity;
          assign_slot Entity o ;;
          ret o
      | Some o => ret o
      end;
  emit (EvReturn Entity o) ;;
  ret o.

Definition accessor (k : built) (s : stage) : M obj :=
  match s with
  | Tagger => tagger k
  | Parser => parser k
  | Entity => entity k
  end.

(** A client reading the properties of an instance, one read after the
    other; a read that raises does not stop the client. The outcome of
    every read is kept, in order, next to the state and the log. *)
Fixpoint run_reads (rs : list (stage * built)) (w : World)
    : World * list event * list (stage * result obj) :=
  match rs with
  | [] => (w, [], [])
  | (s, k) :: rest =>
      let '(r, w1, ev1) := accessor k s w in
      let '(w2, ev2, out) := run_reads rest w1 in
      (w2, ev1 ++ ev2, (s, r) :: out)
  end.

(** The outcomes of the reads of the property of stage [s]. *)
Fixpoint results (s : stage) (out : list (stage * result obj)) : list (result obj) :=
  match out with
  | [] => []
  | (s', r) :: rest => if bool_decide (s' = s) then r :: results s rest else results s rest
  end.

End Lazy.

Definition is_raised (s : stage) (e : event) : bool :=
  match e with
  | EvRaised s' => bool_decide (s' = s)
  | _ => false
  end.

(** The constructor of stage [s] was called: the call returned or raised. *)
Definition is_call (s : stage) (e : event) : bool := is_construct s e || is_raised s e.

(** How often the constructor of stage [s] was called. *)
Definition calls (s : stage) (evs : list event) : nat :=
  length (List.filter (is_call s) evs).



(** The read returned the object [o]. *)
Definition returned (o : obj) (r : result obj) : bool :=
  match r with
  | Ok o' => o' =? o
  | Raise _ => false
  end.


(** From the first read that returns on, every read returns the object
    that one returned. *)
Fixpoint stable (R : list (result obj)) : bool :=
  match R with
  | [] => true
  | Ok o :: rest => forallb (returned o) rest
  | Raise _ :: rest => stable rest
  end.


(** ** The wording of the specification, where the code differs *)

(** "Fails with a model-not-found error if a stage is explicitly requested
    ([=true]) but its model is absent", for the stage [s] among tagger,
    parser and entity. *)
Definition requested_arg (s : stage) (tag parse entity : pyval) : pyval :=
  match s with
  | Tagger => tag
  | Parser => parse
  | Entity => entity
  end.

Definition spec_model_not_found (s : stage) (r : result loc) (self : English)
    (tag parse entity : pyval) : Prop :=
  py_eq (requested_arg s tag parse entity) py_True = true ->
  has_model s self = false ->
  ∃ msg, r = Raise (IOError msg).



(** "length, prefix (first character), suffix (last 3 characters),
    lowercase form, cluster, prob and sentiment defaulting to 0", for the
    outcome [r] of the feature extraction on [s]. *)
Definition spec_lex_props (s : string) (r : result (gmap string pyval)) : Prop :=
  ∃ d c rest front suffix,
    r = Ok d
    ∧ d !! "length" = Some (PyInt (Z.of_nat (String.length s)))
    ∧ s = String c rest ∧ d !! "prefix" = Some (PyStr (String c EmptyString))
    ∧ s = front +:+ suffix ∧ String.length suffix = 3 ∧ d !! "suffix" = Some (PyStr suffix)
    ∧ d !! "lower" = Some (PyStr (PyStr.lower s))
    ∧ d !! "cluster" = Some (PyInt 0)
    ∧ d !! "prob" = Some (PyInt 0)
    ∧ d !! "sentiment" = Some (PyInt 0).

(** ** A fixture: a small instance on which the model runs

    The examples need a tokenizer, stage engines and a file system to run
    on. The tokenizer, the engines, the rule data and the models of the
    package are not part of this development; what follows stands in for
    them in the examples only, and no property below is about it. *)

Module Tokenizer.

(** Rule data in the shape section 6 of the specification names: an
    exception table from a chunk to a fixed sequence of forms, and three
    patterns, each given by what it matches: the length of the match of
    the prefix pattern at the start of a string and of the suffix pattern
    at its end (0 when there is none), and position and length of the
    first infix match. *)
Record Rules : Type := mkRules {
  exceptions : string -> option (list string);
  prefix_len : string -> nat;
  suffix_len : string -> nat;
  infix_find : string -> option (nat * nat)
}.

Definition is_space (c : ascii) : bool :=
  match nat_of_ascii c with
  | 9 | 10 | 11 | 12 | 13 | 32 => true
  | _ => false
  end.

(** A token as a tokenizer makes it: every annotation slot unset. *)
Definition new_token (form : string) (off : nat) : Token :=
  mkToken form off (off + String.length form) None None None None.

(** The chunks between whitespace, each with its offset in the text.
    [acc] holds the open chunk, last character first. *)
Fixpoint chunks (cs : list ascii) (off : nat) (acc : list ascii) : list (nat * string) :=
  let flush := match acc with
               | [] => []
               | _ => [(off - length acc, string_of_list_ascii (rev acc))]
               end in
  match cs with
  | [] => flush
  | c :: rest =>
      if is_space c then flush ++ chunks rest (S off) []
      else chunks rest (S off) (c :: acc)
  end.

Section Rules.

Variable rules : Rules.

(** The fixed sequence of forms an exception substitutes for a chunk,
    laid out from the offset of the chunk. *)
Fixpoint exception_tokens (forms : list string) (off : nat) : Tokens :=
  match forms with
  | [] => []
  | f :: rest => new_token f off :: exception_tokens rest (off + String.length f)
  end.

(** Splitting at infix matches; the matched infix is a token of its own. *)
Fixpoint infix_tokens (fuel : nat) (s : string) (off : nat) : Tokens :=
  match fuel with
  | O => []
  | S fuel' =>
      if String.eqb s "" then []
      else
        let n := String.length s in
        match infix_find rules s with
        | Some (i, k) =>
            if ((0 <? k) && (i + k <=? n))%nat then
              (if (0 <? i)%nat then [new_token (String.substring 0 i s) off] else [])
              ++ new_token (String.substring i k s) (off + i)
              :: infix_tokens fuel' (String.substring (i + k) (n - (i + k)) s) (off + i + k)
            else [new_token s off]
        | None => [new_token s off]
        end
  end.

(** Prefixes and suffixes are stripped from the outside in, an exception
    replaces a whole chunk, the rest is split at infixes. [sufs] holds the
    suffixes stripped so far. *)
Fixpoint split_chunk (fuel : nat) (s : string) (off : nat) (sufs : Tokens) : Tokens :=
  match fuel with
  | O => sufs
  | S fuel' =>
      if String.eqb s "" then sufs
      else
        match exceptions rules s with
        | Some forms => exception_tokens forms off ++ sufs
        | None =>
            let n := String.length s in
            let p := Nat.min (prefix_len rules s) n in
            if (0 <? p)%nat then
              new_token (String.substring 0 p s) off
              :: split_chunk fuel' (String.substring p (n - p) s) (off + p) sufs
            else
              let q := Nat.min (suffix_len rules s) n in
              if (0 <? q)%nat then
                split_chunk fuel' (String.substring 0 (n - q) s) off
                  (new_token (String.substring (n - q) q s) (off + (n - q)) :: sufs)
              else infix_tokens (S n) s off ++ sufs
        end
  end.

(** The tokens of a text. *)
Definition segment (text : string) : Tokens :=
  concat (map (λ '(off, s), split_chunk (S (String.length s)) s off [])
              (chunks (list_ascii_of_string text) 0 [])).

End Rules.

(** Example rule data, not those of the English package: the suffix
    pattern matches one closing punctuation mark; there is no prefix, no
    infix and no exception. *)
Definition closing_punct (c : ascii) : bool :=
  match c with
  | "."%char | ","%char | "!"%char | "?"%char | ";"%char | ":"%char => true
  | _ => false
  end.

Definition last_char (s : string) : option ascii :=
  match String.length s with
  | O => None
  | S n => String.get n s
  end.

Definition punct_rules : Rules :=
  {| exceptions := λ _, None;
     prefix_len := λ _, 0;
     suffix_len := λ s, match last_char s with
                        | Some c => if closing_punct c then 1 else 0
                        | None => 0
                        end;
     infix_find := λ _, None |}.

End Tokenizer.

Module Fixture.

Definition sentence_final_form (form : string) : bool :=
  String.eqb form "." || String.eqb form "!" || String.eqb form "?".

Definition set_tag (v : string) (t : Token) : Token :=
  mkToken (orth t) (tok_start t) (tok_end t) (Some v) (head t) (dep t) (ent t).
Definition set_head (h : nat) (l : string) (t : Token) : Token :=
  mkToken (orth t) (tok_start t) (tok_end t) (tag t) (Some h) (Some l) (ent t).
Definition set_ent (v : string) (t : Token) : Token :=
  mkToken (orth t) (tok_start t) (tok_end t) (tag t) (head t) (dep t) (Some v).

(** Engines that fill their slots with a fixed annotation. *)
Definition engine (s : stage) (b : Tokens) : Tokens :=
  match s with
  | Tagger => map (λ t, set_tag (if sentence_final_form (orth t) then "." else "NN") t) b
  | Parser => map (set_head 0 "dep") b
  | Entity => map (set_ent "O") b
  end.

Definition merger (b : Tokens) : Tokens := b.

Definition get_flags (s : string) : Z := 0.
Definition word_shape (s : string) : string := s.

Definition tokenizer : string -> Tokens := Tokenizer.segment Tokenizer.punct_rules.

Definition LOCAL_DATA_DIR : string := "/site-packages/spacy/en/data".

(** A file system with all three models installed. *)
Definition installed (p : string) : bool := true.

Definition world (fs : string -> bool) (data_dir : option string) : World :=
  mkWorld (__init__ LOCAL_DATA_DIR fs data_dir 0) ∅ 1.

(** [English()] with the models installed. *)
Definition en_nlp : World := world installed (Some "").
(** [English(data_dir=None)]. *)
Definition bare_nlp : World := world installed None.
(** [English()] with only the parser model installed. *)
Definition parser_only_nlp : World :=
  world (λ p, String.eqb p "/site-packages/spacy/en/data/deps") (Some "").

Definition call := __call__ tokenizer engine merger.

Definition sentence : string :=
  "This is a sentence. This is another sentence. And a third.".

End Fixture.

(** ** Outcomes of a call

    The seven ways [__call__] can end, each with the state and the log it
    leaves: the two argument errors, the two model errors, a property
    that raises in [path.join] (parser or entity), and the return. *)

(** The stage runs in this call: its request, once "auto" is resolved, is
    truthy and its model is present (lines 175, 190 and 192). *)
Definition enabled (s : stage) (tag parse entity : pyval) (self : English) : bool :=
  match s with
  | Tagger => truthy tag && has_tagger_model self
  | Parser => truthy (resolve tag parse (has_parser_model self)) && has_parser_model self
  | Entity => truthy (resolve tag entity (has_entity_model self)) && has_entity_model self
  end.

(** The condition of line 194. *)
Definition merging (merge_mwes : pyval) (self : English) : bool :=
  truthy merge_mwes && bool_decide (mwe_merger self ≠ None).

Section Outcomes.

Variable tokenizer : string -> Tokens.
Variable engine : stage -> Tokens -> Tokens.
Variable merger : Tokens -> Tokens.

Variable text : string.
Variables tag parse entity merge_mwes : pyval.
Variable w : World.

(** The buffer the call makes, and the states after lines 166, 176, 191
    and 193 when they are reached. *)
Definition new_buffer : loc := fresh (dom (heap w)).

Definition tokenized : World :=
  mkWorld (self_ w) (<[new_buffer := tokenizer text]> (heap w)) (next_obj w).

Definition tagged : World :=
  step_world engine (enabled Tagger tag parse entity (self_ w)) Tagger new_buffer tokenized.

Definition parsed : World :=
  step_world engine (enabled Parser tag parse entity (self_ w)) Parser new_buffer tagged.

Definition recognized : World :=
  step_world engine (enabled Entity tag parse entity (self_ w)) Entity new_buffer parsed.

Definition tagged_events : list event :=
  EvTokenize text new_buffer
  :: step_events (enabled Tagger tag parse entity (self_ w)) Tagger new_buffer tokenized.

Definition parsed_events : list event :=
  tagged_events
  ++ step_events (enabled Parser tag parse entity (self_ w)) Parser new_buffer tagged.

Inductive call_outcome : result loc * World * list event -> Prop :=
  | OutArgParse :
      py_eq parse py_True && py_eq tag py_False = true ->
      call_outcome (Raise (ValueError msg_tag_parse), w, [])
  | OutArgEntity :
      py_eq parse py_True && py_eq tag py_False = false ->
      py_eq entity py_True && py_eq tag py_False = true ->
      call_outcome (Raise (ValueError msg_tag_entity), w, [])
  | OutNoParser :
      py_eq tag py_False = false ->
      py_eq parse py_True = true ->
      has_parser_model (self_ w) = false ->
      call_outcome (Raise (IOError msg_no_parser), tagged, tagged_events)
  | OutNoEntity :
      py_eq tag py_False = false ->
      request_passes tag parse (has_parser_model (self_ w)) = true ->
      py_eq entity py_True = true ->
      has_entity_model (self_ w) = false ->
      call_outcome (Raise (IOError msg_no_entity), tagged, tagged_events)
  | OutParserProperty msg :
      request_passes tag parse (has_parser_model (self_ w)) = true ->
      request_passes tag entity (has_entity_model (self_ w)) = true ->
      enabled Parser tag parse entity (self_ w) = true ->
      can_access Parser tagged = false ->
      call_outcome (Raise (TypeError msg), tagged, tagged_events ++ [EvAccess Parser])
  | OutEntityProperty msg :
      request_passes tag parse (has_parser_model (self_ w)) = true ->
      request_passes tag entity (has_entity_model (self_ w)) = true ->
      (enabled Parser tag parse entity (self_ w) = true -> can_access Parser tagged = true) ->
      enabled Entity tag parse entity (self_ w) = true ->
      can_access Entity parsed = false ->
      call_outcome (Raise (TypeError msg), parsed, parsed_events ++ [EvAccess Entity])
  | OutReturn :
      request_passes tag parse (has_parser_model (self_ w)) = true ->
      request_passes tag entity (has_entity_model (self_ w)) = true ->
      (enabled Parser tag parse entity (self_ w) = true -> can_access Parser tagged = true) ->
      (enabled Entity tag parse entity (self_ w) = true -> can_access Entity parsed = true) ->
      call_outcome
        (Ok new_buffer,
         merge_world merger (merging merge_mwes (self_ w)) new_buffer recognized,
         parsed_events
         ++ step_events (enabled Entity tag parse entity (self_ w)) Entity new_buffer parsed
         ++ merge_events (merging merge_mwes (self_ w)) new_buffer).

End Outcomes.


(** *** How a call ends, by kind *)




(** *** More observations on logs and results *)

(** What is done to buffers, in order. *)
Inductive bufop : Type := BTokenize | BRun (s : stage) | BMerge.

Fixpoint buffer_ops (evs : list event) : list bufop :=
  match evs with
  | [] => []
  | EvTokenize _ _ :: rest => BTokenize :: buffer_ops rest
  | EvRun s _ _ :: rest => BRun s :: buffer_ops rest
  | EvMerge _ :: rest => BMerge :: buffer_ops rest
  | _ :: rest => buffer_ops rest
  end.

Definition pipeline_order : list bufop :=
  [BTokenize; BRun Tagger; BRun Parser; BRun Entity; BMerge].

(** The engine objects of stage [s] that were applied to a buffer. *)
Fixpoint engines_applied (s : stage) (evs : list event) : list obj :=
  match evs with
  | [] => []
  | EvRun s' o _ :: rest =>
      if bool_decide (s' = s) then o :: engines_applied s rest else engines_applied s rest
  | _ :: rest => engines_applied s rest
  end.


(** * Properties *)

(** ** Lexical features *)

Example get_lex_props_Hello :
  (λ r, match r with
        | Ok d => (d !! "prefix", d !! "suffix", d !! "lower", d !! "length")
        | Raise _ => (None, None, None, None)
        end) (get_lex_props Fixture.get_flags Fixture.word_shape "Hello")
  = (Some (PyStr "H"), Some (PyStr "llo"), Some (PyStr "hello"), Some (PyInt 5)).
Proof. vm_compute. reflexivity. Qed.

Lemma substring_all (s : string) : String.substring 0 (String.length s) s = s.
Proof. induction s as [|c s IH]; simpl; [done | by rewrite IH]. Qed.

Lemma substring_split (s : string) (n : nat) :
  n ≤ String.length s ->
  s = String.substring 0 n s +:+ String.substring n (String.length s - n) s.
Proof.
  revert n. induction s as [|c s IH]; intros [|n] Hn; simpl in *; try lia.
  - done.
  - by rewrite substring_all.
  - change (String c s
            = String c (String.substring 0 n s
                        +:+ String.substring n (String.length s - n) s)).
    f_equal. apply IH. lia.
Qed.

Lemma substring_length (s : string) (n m : nat) :
  n + m ≤ String.length s -> String.length (String.substring n m s) = m.
Proof.
  revert n m. induction s as [|c s IH]; intros [|n] [|m] Hn; simpl in *;
    try lia; try done.
  - f_equal. apply (IH 0). lia.
  - apply IH. lia.
  - apply IH. lia.
Qed.

(** [s[-3:]] is the tail of [s] that holds its last three characters, or
    all of [s] when it has fewer. *)
Lemma slice_last3 (s : string) :
  ∃ front, s = front +:+ PyStr.slice_from s (-3)
           ∧ String.length (PyStr.slice_from s (-3)) = Nat.min 3 (String.length s).
Proof.
  unfold PyStr.slice_from, PyStr.len.
  change (-3 <? 0)%Z with true. cbv iota.
  assert (Hj : ∀ n : nat, Z.to_nat (Z.max 0 (Z.of_nat n + -3)%Z) = n - 3) by lia.
  rewrite Hj. exists (String.substring 0 (String.length s - 3) s). split.
  - apply substring_split. lia.
  - rewrite substring_length; lia.
Qed.

Lemma index_0_cons (c : ascii) (s : string) :
  PyStr.index (String c s) 0 = Ok (String c EmptyString).
Proof.
  unfold PyStr.index, PyStr.len. simpl.
  destruct (Z.leb_spec (Z.pos (Pos.of_succ_nat (String.length s))) 0); [lia | done].
Qed.

Lemma get_lex_props_returns get_flags word_shape (c : ascii) (s : string) :
  ∃ d, get_lex_props get_flags word_shape (String c s) = Ok d
       ∧ d !! "length" = Some (PyInt (Z.of_nat (String.length (String c s))))
       ∧ d !! "prefix" = Some (PyStr (String c EmptyString))
       ∧ d !! "suffix" = Some (PyStr (PyStr.slice_from (String c s) (-3)))
       ∧ d !! "lower" = Some (PyStr (PyStr.lower (String c s)))
       ∧ d !! "cluster" = Some (PyInt 0)
       ∧ d !! "prob" = Some (PyInt 0)
       ∧ d !! "sentiment" = Some (PyInt 0).
Proof.
  unfold get_lex_props. rewrite index_0_cons.
  eexists. split; [reflexivity |].
  repeat split; reflexivity.
Qed.

(** On every non-empty string the feature extraction returns. *)
Lemma get_lex_props_nonempty_ok get_flags word_shape (s : string) :
  s ≠ "" -> is_ok (get_lex_props get_flags word_shape s) = true.
Proof.
  destruct s as [|c s]; [done | intros _].
  destruct (get_lex_props_returns get_flags word_shape c s) as (d & -> & _). done.
Qed.

(** C5. The specification has [get_lex_props] succeed on every input
    string. On the empty string the entry ['prefix': string[0]] raises
    [IndexError], whatever [get_flags] and [word_shape] do: the empty
    string is the one case the function misses. *)
Theorem get_lex_props_empty_raises get_flags word_shape :
  get_lex_props get_flags word_shape "" = Raise (IndexError "string index out of range").
Proof. reflexivity. Qed.

(** C6, as the specification words it, fails on a word form of two
    characters: the suffix entry of ["ab"] is ["ab"], which is not three
    characters long. *)
Lemma get_lex_props_short_suffix :
  ¬ spec_lex_props "ab" (get_lex_props Fixture.get_flags Fixture.word_shape "ab").
Proof.
  intros (d & c & rest & front & suffix & Hd & _ & _ & _ & _ & Hlen & Hsuf & _).
  injection Hd as <-. vm_compute in Hsuf.
  injection Hsuf as <-. vm_compute in Hlen. discriminate.
Qed.

(** C6, amended. For every non-empty word form [get_lex_props] returns a
    dictionary whose length is the number of characters, whose prefix is
    the first character, whose suffix is the tail holding the last three
    characters (all of the form when it has fewer than three), whose lower
    entry is the lowercase form, and whose cluster, prob and sentiment are
    0. *)
Theorem get_lex_props_features get_flags word_shape (s : string) :
  s ≠ "" ->
  ∃ d c rest front suffix,
    get_lex_props get_flags word_shape s = Ok d
    ∧ d !! "length" = Some (PyInt (Z.of_nat (String.length s)))
    ∧ s = String c rest ∧ d !! "prefix" = Some (PyStr (String c EmptyString))
    ∧ s = front +:+ suffix
    ∧ String.length suffix = Nat.min 3 (String.length s)
    ∧ d !! "suffix" = Some (PyStr suffix)
    ∧ d !! "lower" = Some (PyStr (PyStr.lower s))
    ∧ d !! "cluster" = Some (PyInt 0)
    ∧ d !! "prob" = Some (PyInt 0)
    ∧ d !! "sentiment" = Some (PyInt 0).
Proof.
  destruct s as [|c s]; [done | intros _].
  destruct (get_lex_props_returns get_flags word_shape c s)
    as (d & Hd & Hlen & Hpre & Hsuf & Hlow & Hcl & Hpr & Hse).
  destruct (slice_last3 (String c s)) as (front & Hsplit & Hl3).
  exists d, c, s, front, (PyStr.slice_from (String c s) (-3)).
  repeat split; assumption.
Qed.

Lemma get_lex_props_features_witness :
  "Hello" ≠ "" ∧
  ∃ d c rest front suffix,
    get_lex_props Fixture.get_flags Fixture.word_shape "Hello" = Ok d
    ∧ d !! "length" = Some (PyInt (Z.of_nat (String.length "Hello")))
    ∧ "Hello" = String c rest ∧ d !! "prefix" = Some (PyStr (String c EmptyString))
    ∧ "Hello" = front +:+ suffix
    ∧ String.length suffix = Nat.min 3 (String.length "Hello")
    ∧ d !! "suffix" = Some (PyStr suffix)
    ∧ d !! "lower" = Some (PyStr (PyStr.lower "Hello"))
    ∧ d !! "cluster" = Some (PyInt 0)
    ∧ d !! "prob" = Some (PyInt 0)
    ∧ d !! "sentiment" = Some (PyInt 0).
Proof.
  split; [discriminate |].
  apply (get_lex_props_features Fixture.get_flags Fixture.word_shape "Hello"). discriminate.
Defined.

(** ** The lazy properties *)

Lemma accessor_returns (s : stage) (w : World) :
  can_access s w = true ->
  accessor s w = (Ok (engine_of s w), after_access s w, access_events s w).
Proof.
  unfold can_access, engine_of, after_access, access_events.
  destruct w as [self h n]. destruct self as [d hp ht he mm st sp se].
  destruct s; simpl.
  - intros _. destruct st; reflexivity.
  - destruct sp; [reflexivity |]. destruct d; [reflexivity | done].
  - destruct se; [reflexivity |]. destruct d; [reflexivity | done].
Qed.

Lemma accessor_raises (s : stage) (w : World) :
  can_access s w = false ->
  ∃ msg, accessor s w = (Raise (TypeError msg), w, [EvAccess s]).
Proof.
  unfold can_access.
  destruct w as [self h n]. destruct self as [d hp ht he mm st sp se].
  destruct s; simpl.
  - done.
  - destruct sp; [done |]. destruct d; [done |]. intros _. by eexists.
  - destruct se; [done |]. destruct d; [done |]. intros _. by eexists.
Qed.

(** ** The pipeline *)

Section PipelineFacts.

Variable tokenizer : string -> Tokens.
Variable engine : stage -> Tokens -> Tokens.
Variable merger : Tokens -> Tokens.

Local Abbreviation call := (__call__ tokenizer engine merger).

(** *** Evaluating a call *)

Lemma bind_eval {A B} (m : M A) (k : A -> M B) (w : World) :
  (m ≫= k) w = match m w with
               | (Ok a, w1, ev1) => let '(r, w2, ev2) := k a w1 in (r, w2, ev1 ++ ev2)
               | (Raise e, w1, ev1) => (Raise e, w1, ev1)
               end.
Proof. reflexivity. Qed.

Lemma step_eval (c : bool) (s : stage) (l : loc) (w : World) :
  (c = true -> can_access s w = true) ->
  when c (accessor s ≫= λ o, run engine s o l) w
  = (Ok tt, step_world engine c s l w, step_events c s l w).
Proof.
  intros Hacc. destruct c; [| reflexivity]. simpl.
  rewrite bind_eval, (accessor_returns s w (Hacc eq_refl)).
  unfold run, after_access. destruct (slot s (self_ w)); reflexivity.
Qed.

Lemma merge_eval (c : bool) (l : loc) (w : World) :
  when c (merge merger l) w = (Ok tt, merge_world merger c l w, merge_events c l).
Proof. by destruct c. Qed.

(** [__call__] up to the model checks, which the tagger cannot stop. *)
Lemma call_eval (text : string) (tag parse entity merge_mwes : pyval) (w : World) :
  let self := self_ w in
  let l := fresh (dom (heap w)) in
  let rp := resolve tag parse (has_parser_model self) in
  let re := resolve tag entity (has_entity_model self) in
  let ct := truthy tag && has_tagger_model self in
  let cp := truthy rp && has_parser_model self in
  let ce := truthy re && has_entity_model self in
  let cm := truthy merge_mwes && bool_decide (mwe_merger self ≠ None) in
  let w1 := mkWorld self (<[l := tokenizer text]> (heap w)) (next_obj w) in
  let wt := step_world engine ct Tagger l w1 in
  let evt := EvTokenize text l :: step_events ct Tagger l w1 in
  call text tag parse entity merge_mwes w
  = if py_eq parse py_True && py_eq tag py_False
    then (Raise (ValueError msg_tag_parse), w, [])
    else if py_eq entity py_True && py_eq tag py_False
    then (Raise (ValueError msg_tag_entity), w, [])
    else if py_eq rp py_True && negb (has_parser_model self)
    then (Raise (IOError msg_no_parser), wt, evt)
    else if py_eq re py_True && negb (has_entity_model self)
    then (Raise (IOError msg_no_entity), wt, evt)
    else let '(r, w2, ev2) := later_stages engine merger cp ce cm l wt in (r, w2, evt ++ ev2).
Proof.
  intros self l rp re ct cp ce cm w1 wt evt.
  unfold __call__.
  destruct (py_eq parse py_True && py_eq tag py_False); [reflexivity |].
  destruct (py_eq entity py_True && py_eq tag py_False); [reflexivity |].
  rewrite bind_eval. unfold tokenize at 1. fold l.
  rewrite bind_eval. unfold get_self at 1. cbv beta iota zeta. simpl self_.
  change (if py_eq parse (PyInt (-1)) && py_eq tag py_False then py_False
          else if py_eq parse (PyInt (-1)) && negb (has_parser_model (self_ w))
               then py_False else parse) with rp.
  change (if py_eq entity (PyInt (-1)) && py_eq tag py_False then py_False
          else if py_eq entity (PyInt (-1)) && negb (has_entity_model (self_ w))
               then py_False else entity) with re.
  change self_tagger with (accessor Tagger).
  change self_parser with (accessor Parser).
  change self_entity with (accessor Entity).
  fold self ct cp ce cm w1.
  rewrite bind_eval, step_eval by done. fold wt.
  fold (later_stages engine merger cp ce cm l).
  destruct (py_eq rp py_True && negb (has_parser_model self)).
  { unfold raise. cbv beta iota. by rewrite app_nil_r. }
  destruct (py_eq re py_True && negb (has_entity_model self)).
  { unfold raise. cbv beta iota. by rewrite app_nil_r. }
  destruct (later_stages engine merger cp ce cm l wt) as [[r w2] ev2]. reflexivity.
Qed.

Lemma step_cases (c : bool) (s : stage) (l : loc) (w : World) :
  when c (accessor s ≫= λ o, run engine s o l) w
  = (Ok tt, step_world engine c s l w, step_events c s l w)
  ∨ ∃ msg, when c (accessor s ≫= λ o, run engine s o l) w
           = (Raise (TypeError msg), w, [EvAccess s]).
Proof.
  destruct (can_access s w) eqn:Hacc.
  - left. by apply step_eval.
  - destruct c; [| by left]. right.
    destruct (accessor_raises s w Hacc) as [msg Hr]. exists msg.
    simpl. by rewrite bind_eval, Hr.
Qed.

Lemma later_stages_cases (cp ce cm : bool) (l : loc) (w : World) :
  let wp := step_world engine cp Parser l w in
  let we := step_world engine ce Entity l wp in
  later_stages engine merger cp ce cm l w
  = (Ok l, merge_world merger cm l we,
     step_events cp Parser l w ++ step_events ce Entity l wp ++ merge_events cm l)
  ∨ (∃ msg, later_stages engine merger cp ce cm l w
            = (Raise (TypeError msg), w, [EvAccess Parser]))
  ∨ (∃ msg, later_stages engine merger cp ce cm l w
            = (Raise (TypeError msg), wp, step_events cp Parser l w ++ [EvAccess Entity])).
Proof.
  intros wp we. unfold later_stages. rewrite bind_eval.
  destruct (step_cases cp Parser l w) as [-> | [msg ->]]; [| right; left; by exists msg].
  fold wp. rewrite bind_eval.
  destruct (step_cases ce Entity l wp) as [-> | [msg ->]]; [| right; right; by exists msg].
  fold we. left. rewrite bind_eval, merge_eval. simpl. by rewrite app_nil_r.
Qed.

(** *** What a stage leaves behind *)

Lemma step_world_data_dir (c : bool) (s : stage) (l : loc) (w : World) :
  _data_dir (self_ (step_world engine c s l w)) = _data_dir (self_ w).
Proof.
  unfold step_world, after_access. destruct c; [| done].
  destruct (slot s (self_ w)); [done |]. by destruct s.
Qed.

Lemma step_world_slot (c : bool) (s s' : stage) (l : loc) (w : World) :
  s ≠ s' -> slot s (self_ (step_world engine c s' l w)) = slot s (self_ w).
Proof.
  intros Hne. unfold step_world, after_access. destruct c; [| done].
  destruct (slot s' (self_ w)); [done |]. by destruct s, s'.
Qed.

Lemma step_world_dom (c : bool) (s : stage) (l : loc) (w : World) :
  dom (heap (step_world engine c s l w)) = dom (heap w).
Proof. unfold step_world. destruct c; [| done]. apply dom_alter_L. Qed.

Lemma step_world_lookup (c : bool) (s : stage) (l : loc) (w : World) :
  heap (step_world engine c s l w) !! l = applied c (engine s) <$> heap w !! l.
Proof.
  unfold step_world, applied. destruct c; simpl.
  - apply lookup_alter_eq.
  - by destruct (heap w !! l).
Qed.

Lemma step_world_lookup_ne (c : bool) (s : stage) (l l' : loc) (w : World) :
  l' ≠ l -> heap (step_world engine c s l w) !! l' = heap w !! l'.
Proof.
  intros Hne. unfold step_world. destruct c; [| done]. by apply lookup_alter_ne.
Qed.

Lemma merge_world_dom (c : bool) (l : loc) (w : World) :
  dom (heap (merge_world merger c l w)) = dom (heap w).
Proof. unfold merge_world. destruct c; [| done]. apply dom_alter_L. Qed.

Lemma merge_world_lookup (c : bool) (l : loc) (w : World) :
  heap (merge_world merger c l w) !! l = applied c merger <$> heap w !! l.
Proof.
  unfold merge_world, applied. destruct c; simpl.
  - apply lookup_alter_eq.
  - by destruct (heap w !! l).
Qed.

Lemma merge_world_lookup_ne (c : bool) (l l' : loc) (w : World) :
  l' ≠ l -> heap (merge_world merger c l w) !! l' = heap w !! l'.
Proof.
  intros Hne. unfold merge_world. destruct c; [| done]. by apply lookup_alter_ne.
Qed.

Lemma merge_world_self (c : bool) (l : loc) (w : World) :
  self_ (merge_world merger c l w) = self_ w.
Proof. by destruct c. Qed.

Lemma stage_ran_app (s : stage) (evs evs' : list event) :
  stage_ran s (evs ++ evs') = stage_ran s evs || stage_ran s evs'.
Proof. apply existsb_app. Qed.

Lemma stage_ran_step_events (c : bool) (s s' : stage) (l : loc) (w : World) :
  stage_ran s (step_events c s' l w) = c && bool_decide (s' = s).
Proof.
  unfold step_events, access_events. destruct c; [| done].
  destruct (slot s' (self_ w)); simpl; by rewrite orb_false_r.
Qed.

Lemma stage_ran_merge_events (c : bool) (s : stage) (l : loc) :
  stage_ran s (merge_events c l) = false.
Proof. by destruct c. Qed.

Lemma on_buffer_step_events (c : bool) (s : stage) (l : loc) (w : World) :
  forallb (on_buffer l) (step_events c s l w) = true.
Proof.
  unfold step_events, access_events. destruct c; [| done].
  destruct (slot s (self_ w)); simpl; by rewrite bool_decide_true.
Qed.

Lemma on_buffer_merge_events (c : bool) (l : loc) :
  forallb (on_buffer l) (merge_events c l) = true.
Proof. destruct c; [| done]. simpl. by rewrite bool_decide_true. Qed.

Lemma constructions_app (s : stage) (evs evs' : list event) :
  constructions s (evs ++ evs') = constructions s evs + constructions s evs'.
Proof. unfold constructions. by rewrite List.filter_app, length_app. Qed.

Lemma constructions_step_events (c : bool) (s s' : stage) (l : loc) (w : World) :
  s ≠ s' -> constructions s (step_events c s' l w) = 0.
Proof.
  intros Hne. unfold step_events, access_events. destruct c; [| done].
  destruct (slot s' (self_ w)); [done |].
  unfold constructions. simpl. rewrite bool_decide_false; [done | congruence].
Qed.

(** *** Calls whose requests pass the checks *)

Lemma can_access_data_dir (s : stage) (w : World) :
  _data_dir (self_ w) ≠ None -> can_access s w = true.
Proof.
  intros Hd. unfold can_access. rewrite (bool_decide_true _ Hd). apply orb_true_r.
Qed.

Lemma later_stages_eval (cp ce cm : bool) (l : loc) (w : World) :
  (cp = true -> _data_dir (self_ w) ≠ None) ->
  (ce = true -> _data_dir (self_ w) ≠ None) ->
  let wp := step_world engine cp Parser l w in
  let we := step_world engine ce Entity l wp in
  later_stages engine merger cp ce cm l w
  = (Ok l, merge_world merger cm l we,
     step_events cp Parser l w ++ step_events ce Entity l wp ++ merge_events cm l).
Proof.
  intros Hp He wp we. unfold later_stages.
  rewrite bind_eval, step_eval; fold wp.
  2:{ intros Hc. apply can_access_data_dir. auto. }
  rewrite bind_eval, step_eval; fold we.
  2:{ intros Hc. apply can_access_data_dir. unfold wp.
      rewrite step_world_data_dir. auto. }
  rewrite bind_eval, merge_eval. simpl. by rewrite app_nil_r.
Qed.

Lemma passes_argument_check (tag v : pyval) (present : bool) :
  request_passes tag v present = true ->
  py_eq v py_True && py_eq tag py_False = false.
Proof. unfold request_passes. destruct (py_eq v py_True), (py_eq tag py_False); done. Qed.

Lemma passes_model_check (tag v : pyval) (present : bool) :
  request_passes tag v present = true ->
  py_eq (resolve tag v present) py_True && negb present = false.
Proof.
  unfold request_passes, resolve.
  destruct (py_eq v py_True) eqn:Hv, (py_eq tag py_False), present,
    (py_eq v (PyInt (-1))); simpl; try done; by rewrite ?Hv, ?andb_false_r.
Qed.

Lemma consistent_data_dir (s : stage) (self : English) :
  consistent self = true -> has_model s self = true -> _data_dir self ≠ None.
Proof.
  unfold consistent. destruct (_data_dir self); [done |].
  destruct s; simpl; intros Hc Hm; rewrite Hm in Hc; simpl in Hc;
    rewrite ?andb_false_r in Hc; done.
Qed.

(** A call whose requests pass both checks returns; its state and its
    events in closed form. *)
Lemma call_passes (text : string) (tag parse entity merge_mwes : pyval) (w : World) :
  consistent (self_ w) = true ->
  request_passes tag parse (has_parser_model (self_ w)) = true ->
  request_passes tag entity (has_entity_model (self_ w)) = true ->
  let self := self_ w in
  let l := fresh (dom (heap w)) in
  let ct := truthy tag && has_tagger_model self in
  let cp := truthy (resolve tag parse (has_parser_model self)) && has_parser_model self in
  let ce := truthy (resolve tag entity (has_entity_model self)) && has_entity_model self in
  let cm := truthy merge_mwes && bool_decide (mwe_merger self ≠ None) in
  let w1 := mkWorld self (<[l := tokenizer text]> (heap w)) (next_obj w) in
  let wt := step_world engine ct Tagger l w1 in
  let wp := step_world engine cp Parser l wt in
  let we := step_world engine ce Entity l wp in
  call text tag parse entity merge_mwes w
  = (Ok l, merge_world merger cm l we,
     (EvTokenize text l :: step_events ct Tagger l w1)
     ++ step_events cp Parser l wt ++ step_events ce Entity l wp ++ merge_events cm l).
Proof.
  intros Hc Hp He self l ct cp ce cm w1 wt wp we.
  rewrite call_eval. fold self l ct cp ce cm w1 wt.
  rewrite (passes_argument_check _ _ _ Hp), (passes_argument_check _ _ _ He).
  fold self in Hp, He.
  rewrite (passes_model_check _ _ _ Hp), (passes_model_check _ _ _ He).
  rewrite later_stages_eval; [reflexivity | |].
  - intros Hcp. unfold wt. rewrite step_world_data_dir. simpl.
    apply (consistent_data_dir Parser); [done |].
    unfold cp in Hcp. apply andb_true_iff in Hcp. tauto.
  - intros Hce. unfold wt. rewrite step_world_data_dir. simpl.
    apply (consistent_data_dir Entity); [done |].
    unfold ce in Hce. apply andb_true_iff in Hce. tauto.
Qed.

(** Which stages a passing call runs. *)
Lemma call_passes_ran (text : string) (tag parse entity merge_mwes : pyval) (w : World) :
  consistent (self_ w) = true ->
  request_passes tag parse (has_parser_model (self_ w)) = true ->
  request_passes tag entity (has_entity_model (self_ w)) = true ->
  let self := self_ w in
  let r := call text tag parse entity merge_mwes w in
  is_ok (result_of r) = true
  ∧ stage_ran Tagger (events_of r) = truthy tag && has_tagger_model self
  ∧ stage_ran Parser (events_of r)
    = truthy (resolve tag parse (has_parser_model self)) && has_parser_model self
  ∧ stage_ran Entity (events_of r)
    = truthy (resolve tag entity (has_entity_model self)) && has_entity_model self.
Proof.
  intros Hc Hp He self r. subst r. rewrite (call_passes _ _ _ _ _ _ Hc Hp He).
  unfold result_of, events_of. simpl.
  rewrite !stage_ran_app, !stage_ran_step_events, !stage_ran_merge_events.
  repeat split; simpl; rewrite ?andb_false_r, ?andb_true_r, ?orb_false_r; done.
Qed.

(** C1. For every text, a call with [parse == True] or [entity == True]
    while [tag == False] raises [ValueError]; it does so before the
    tokenizer or any stage has run: no event is logged and the state,
    lazy slots and buffers included, is the one the call started in. *)
Theorem call_incompatible_arguments (text : string) (tag parse entity merge_mwes : pyval)
    (w : World) :
  py_eq tag py_False = true ->
  py_eq parse py_True = true ∨ py_eq entity py_True = true ->
  ∃ msg, call text tag parse entity merge_mwes w = (Raise (ValueError msg), w, []).
Proof.
  intros Htag Hreq. unfold __call__. rewrite Htag, !andb_true_r.
  destruct (py_eq parse py_True) eqn:Hp.
  - by eexists.
  - destruct Hreq as [? | ->]; [done | by eexists].
Qed.

(** C8. For every successful call the buffer returned is the object the
    tokenizer made for that text: it is new, it is the only object the
    call adds, every other buffer is left as it was, the tokenizer is
    called once and every stage and the merger are applied to this very
    buffer, whose contents are the tokenizer's output as annotated in
    place by the stages that ran, in pipeline order. *)
Theorem call_returns_tokenizer_buffer (text : string)
    (tag parse entity merge_mwes : pyval) (w : World) (l : loc) :
  result_of (call text tag parse entity merge_mwes w) = Ok l ->
  let r := call text tag parse entity merge_mwes w in
  (l ∉ dom (heap w))
  ∧ dom (heap (world_of r)) = {[l]} ∪ dom (heap w)
  ∧ (∀ l', l' ≠ l -> heap (world_of r) !! l' = heap w !! l')
  ∧ (∃ evs, events_of r = EvTokenize text l :: evs ∧ forallb (on_buffer l) evs = true)
  ∧ (∃ ct cp ce cm,
       heap (world_of r) !! l
       = Some (applied cm merger (applied ce (engine Entity)
                 (applied cp (engine Parser)
                    (applied ct (engine Tagger) (tokenizer text)))))).
Proof.
  intros Hr r. subst r. revert Hr. rewrite call_eval.
  set (self := self_ w). set (l0 := fresh (dom (heap w))).
  set (ct := truthy tag && has_tagger_model self).
  set (cp := truthy (resolve tag parse (has_parser_model self)) && has_parser_model self).
  set (ce := truthy (resolve tag entity (has_entity_model self)) && has_entity_model self).
  set (cm := truthy merge_mwes && bool_decide (mwe_merger self ≠ None)).
  set (w1 := mkWorld self (<[l0 := tokenizer text]> (heap w)) (next_obj w)).
  set (wt := step_world engine ct Tagger l0 w1).
  repeat (match goal with |- context [if ?c then _ else _] => destruct c end;
          [discriminate |]).
  destruct (later_stages_cases cp ce cm l0 wt) as [-> | [[msg ->] | [msg ->]]];
    [| discriminate ..].
  set (wp := step_world engine cp Parser l0 wt).
  set (we := step_world engine ce Entity l0 wp).
  unfold result_of, world_of, events_of. simpl. intros [= <-].
  split; [apply is_fresh |]. split; [| split; [| split]].
  - rewrite merge_world_dom. unfold we, wp, wt. rewrite !step_world_dom. simpl.
    apply dom_insert_L.
  - intros l' Hne. rewrite merge_world_lookup_ne by done. unfold we, wp, wt.
    rewrite !step_world_lookup_ne by done. simpl. by apply lookup_insert_ne.
  - eexists. split; [reflexivity |].
    rewrite !forallb_app, !on_buffer_step_events, on_buffer_merge_events. done.
  - exists ct, cp, ce, cm. rewrite merge_world_lookup. unfold we, wp, wt.
    rewrite !step_world_lookup. simpl. by rewrite lookup_insert_eq.
Qed.

Lemma py_eq_True_not_auto (v : pyval) :
  py_eq v py_True = true -> py_eq v (PyInt (-1)) = false.
Proof.
  destruct v as [| [] | z | s]; simpl; try done.
  intros Hz. apply Z.eqb_eq in Hz. by subst z.
Qed.

Lemma resolve_odd (tag v : pyval) (present : bool) :
  py_eq v (PyInt (-1)) = false -> resolve tag v present = v.
Proof. unfold resolve. by intros ->. Qed.

(** C2, amended. For every text, if the parser or the entity stage is
    requested with [== True], [tag] is not [== False], and the model of
    the stage is absent, the call fails with [IOError] (model not found),
    which is not a [ValueError] (the argument error). An explicit
    [tag=True] without a tagger model is no error: the tagging stage is
    skipped. *)
Theorem explicit_request_without_model (s : stage) (text : string)
    (tag parse entity merge_mwes : pyval) (w : World) :
  s ≠ Tagger ->
  py_eq tag py_False = false ->
  py_eq (requested_arg s tag parse entity) py_True = true ->
  has_model s (self_ w) = false ->
  ∃ msg, result_of (call text tag parse entity merge_mwes w) = Raise (IOError msg)
         ∧ ∀ msg', IOError msg ≠ ValueError msg'.
Proof.
  intros Hs Htag Hreq Hmodel. rewrite call_eval. rewrite Htag, !andb_false_r.
  destruct s; [done | |]; simpl in Hreq, Hmodel.
  - rewrite (resolve_odd _ _ _ (py_eq_True_not_auto _ Hreq)), Hreq, Hmodel. simpl.
    by eexists.
  - destruct (py_eq (resolve tag parse _) py_True && negb _); [by eexists |].
    rewrite (resolve_odd _ _ _ (py_eq_True_not_auto _ Hreq)), Hreq, Hmodel. simpl.
    by eexists.
Qed.





Lemma odd_passes (tag v : pyval) (present : bool) :
  py_eq v py_True = false -> request_passes tag v present = true.
Proof. unfold request_passes. by intros ->. Qed.

(** C9. A request for the parser (or for the entity stage) that is truthy
    but neither [== True] nor [== -1], such as [parse=2], trips neither
    the argument check nor the model check: the call returns, and the
    stage runs exactly when its model is present, whatever [tag] is,
    [tag=False] included. The other of the two requests is arbitrary as
    long as it does not itself stop the call. *)
Theorem odd_request_bypasses_checks (text : string)
    (tag v parse entity merge_mwes : pyval) (w : World) :
  consistent (self_ w) = true ->
  truthy v = true ->
  py_eq v py_True = false ->
  py_eq v (PyInt (-1)) = false ->
  request_passes tag entity (has_entity_model (self_ w)) = true ->
  request_passes tag parse (has_parser_model (self_ w)) = true ->
  let rp := call text tag v entity merge_mwes w in
  let re := call text tag parse v merge_mwes w in
  (is_ok (result_of rp) = true
   ∧ stage_ran Parser (events_of rp) = has_parser_model (self_ w))
  ∧ (is_ok (result_of re) = true
     ∧ stage_ran Entity (events_of re) = has_entity_model (self_ w)).
Proof.
  intros Hc Hv Hnt Hna He Hp rp re. split.
  - destruct (call_passes_ran text tag v entity merge_mwes w Hc
                (odd_passes _ _ _ Hnt) He) as (Hok & _ & Hran & _).
    split; [exact Hok |]. fold rp in Hran. rewrite Hran.
    by rewrite (resolve_odd _ _ _ Hna), Hv.
  - destruct (call_passes_ran text tag parse v merge_mwes w Hc Hp
                (odd_passes _ _ _ Hnt)) as (Hok & _ & _ & Hran).
    split; [exact Hok |]. fold re in Hran. rewrite Hran.
    by rewrite (resolve_odd _ _ _ Hna), Hv.
Qed.

Lemma applied_untagged (c : bool) (f : Tokens -> Tokens) (b : Tokens) :
  (c = true -> ∀ b, untagged b = true -> untagged (f b) = true) ->
  untagged b = true -> untagged (applied c f b) = true.
Proof. destruct c; simpl; auto. Qed.

(** C4. For every text, with [tag=True] and no tagger model the tagging
    stage does nothing and raises nothing: the tagger engine is neither
    built nor applied, the call returns, and the buffer holds the
    tokenizer's output as annotated by the later stages only, so that its
    tags are unset as long as those stages leave the tag slots alone.
    The requests for the parser and the entity stage are arbitrary as
    long as they do not themselves stop the call; their defaults never
    do. *)
Theorem tagger_model_absent_noop (text : string) (parse entity merge_mwes : pyval)
    (w : World) :
  consistent (self_ w) = true ->
  has_tagger_model (self_ w) = false ->
  request_passes py_True parse (has_parser_model (self_ w)) = true ->
  request_passes py_True entity (has_entity_model (self_ w)) = true ->
  untagged (tokenizer text) = true ->
  (∀ b, untagged b = true -> untagged (engine Parser b) = true) ->
  (∀ b, untagged b = true -> untagged (engine Entity b) = true) ->
  truthy merge_mwes = false ∨ (∀ b, untagged b = true -> untagged (merger b) = true) ->
  let r := call text py_True parse entity merge_mwes w in
  ∃ l b cp ce cm,
    result_of r = Ok l
    ∧ stage_ran Tagger (events_of r) = false
    ∧ constructions Tagger (events_of r) = 0
    ∧ _tagger (self_ (world_of r)) = _tagger (self_ w)
    ∧ heap (world_of r) !! l = Some b
    ∧ b = applied cm merger (applied ce (engine Entity)
            (applied cp (engine Parser) (tokenizer text)))
    ∧ untagged b = true.
Proof.
  intros Hc Hmodel Hp He Htok Hpar Hent Hmer r. subst r.
  rewrite (call_passes _ _ _ _ _ _ Hc Hp He). rewrite Hmodel. simpl andb.
  set (l := fresh (dom (heap w))).
  set (cp := truthy (resolve py_True parse _) && _).
  set (ce := truthy (resolve py_True entity _) && _).
  set (cm := truthy merge_mwes && _).
  unfold step_world at 3. unfold step_events at 1. cbv iota.
  set (w1 := mkWorld (self_ w) (<[l := tokenizer text]> (heap w)) (next_obj w)).
  set (wp := step_world engine cp Parser l w1).
  set (we := step_world engine ce Entity l wp).
  unfold result_of, world_of, events_of. simpl fst. simpl snd.
  exists l, (applied cm merger (applied ce (engine Entity)
               (applied cp (engine Parser) (tokenizer text)))), cp, ce, cm.
  split; [reflexivity |]. split; [| split; [| split; [| split; [| split]]]].
  - change (EvTokenize text l :: ?x) with ([EvTokenize text l] ++ x).
    rewrite !stage_ran_app, !stage_ran_step_events, stage_ran_merge_events.
    simpl. by rewrite !andb_false_r.
  - change (EvTokenize text l :: ?x) with ([EvTokenize text l] ++ x).
    rewrite !constructions_app, !constructions_step_events by done.
    by destruct cm.
  - rewrite merge_world_self. unfold we, wp.
    rewrite (step_world_slot _ Tagger Entity), (step_world_slot _ Tagger Parser) by done.
    done.
  - rewrite merge_world_lookup. unfold we, wp. rewrite !step_world_lookup. simpl.
    by rewrite lookup_insert_eq.
  - reflexivity.
  - apply applied_untagged.
    { intros Hcm. destruct Hmer as [Hoff | Hm]; [| exact Hm].
      unfold cm in Hcm. rewrite Hoff in Hcm. done. }
    apply applied_untagged; [intros _; exact Hent |].
    apply applied_untagged; [intros _; exact Hpar |]. exact Htok.
Qed.

(** *** Lazy construction *)

Lemma returns_app (s : stage) (L ev : list event) :
  returns s (L ++ ev) = returns s L ++ returns s ev.
Proof.
  induction L as [|e L IH]; [done |]. destruct e; simpl; try done.
  destruct (bool_decide _); simpl; by rewrite IH.
Qed.

Lemma quiet_constructions (s : stage) (ev : list event) :
  quiet s ev = true -> constructions s ev = 0.
Proof.
  unfold quiet, constructions. induction ev as [|e ev IH]; [done |]. simpl.
  intros [[Hc _]%andb_true_iff Hq]%andb_true_iff.
  apply negb_true_iff in Hc. rewrite Hc. auto.
Qed.

Lemma quiet_returns (s : stage) (ev : list event) :
  quiet s ev = true -> returns s ev = [].
Proof.
  unfold quiet. induction ev as [|e ev IH]; [done |]. simpl.
  intros [[_ Hr]%andb_true_iff Hq]%andb_true_iff.
  apply negb_true_iff in Hr. destruct e; simpl in *; auto. rewrite Hr. auto.
Qed.

Lemma accessed_app_unbuilt (s : stage) (L ev : list event) :
  accessed_before_constructed s L = true ->
  constructions s ev = 0 ->
  accessed_before_constructed s (L ++ ev) = true.
Proof.
  intros HL Hev. induction L as [|e L IH]; simpl in *.
  - clear HL. induction ev as [|e ev IH]; [done |]. simpl.
    unfold constructions in Hev. simpl in Hev.
    destruct (is_construct s e); [done |]. destruct (is_access s e); auto.
  - destruct (is_construct s e); [done |]. destruct (is_access s e); auto.
Qed.

Lemma accessed_app_first (s : stage) (L ev : list event) :
  constructions s L = 0 ->
  accessed_before_constructed s ev = true ->
  accessed_before_constructed s (L ++ ev) = true.
Proof.
  intros HL Hev. induction L as [|e L IH]; simpl in *; [done |].
  unfold constructions in HL. simpl in HL.
  destruct (is_construct s e); [done |]. destruct (is_access s e); auto.
Qed.

Lemma keeps_refl (s : stage) (w : World) : keeps s w w [].
Proof. split; [done |]. intros L. by rewrite app_nil_r. Qed.

Lemma keeps_trans (s : stage) (w1 w2 w3 : World) (e1 e2 : list event) :
  keeps s w1 w2 e1 -> keeps s w2 w3 e2 -> keeps s w1 w3 (e1 ++ e2).
Proof.
  intros [Hd1 H1] [Hd2 H2]. split; [congruence |].
  intros L HL. rewrite app_assoc. auto.
Qed.

(** Execution that leaves the slot of [s] alone and is quiet about [s]. *)
Lemma config_data_dir (self self' : English) :
  config self' = config self -> _data_dir self' = _data_dir self.
Proof. unfold config. congruence. Qed.

Lemma keeps_quiet (s : stage) (w w' : World) (ev : list event) :
  config (self_ w') = config (self_ w) ->
  slot s (self_ w') = slot s (self_ w) ->
  quiet s ev = true ->
  keeps s w w' ev.
Proof.
  intros Hd Hs Hq. split; [done |]. intros L (Hacc & Hdir & Hslot).
  unfold lazy_inv. rewrite (config_data_dir _ _ Hd), Hs.
  rewrite constructions_app, returns_app, (quiet_constructions _ _ Hq),
    (quiet_returns _ _ Hq), Nat.add_0_r, app_nil_r.
  split; [| done]. apply accessed_app_unbuilt; [done |]. by apply quiet_constructions.
Qed.

Lemma keeps_accessor (s s' : stage) (w : World) :
  keeps s w (world_of (accessor s' w)) (events_of (accessor s' w)).
Proof.
  destruct (can_access s' w) eqn:Hcan.
  2:{ destruct (accessor_raises s' w Hcan) as [msg ->]. by apply keeps_quiet. }
  rewrite (accessor_returns s' w Hcan). unfold world_of, events_of. simpl.
  destruct (decide (s' = s)) as [-> | Hne].
  - unfold after_access, access_events. destruct (slot s (self_ w)) as [o|] eqn:Hslot.
    + split; [done |]. intros L (Hacc & Hdir & Hinv). unfold lazy_inv.
      rewrite Hslot in *. destruct Hinv as [Hcons Hret].
      rewrite constructions_app, returns_app. simpl.
      rewrite bool_decide_true by done. split; [| split].
      * apply accessed_app_unbuilt; [done |]. reflexivity.
      * done.
      * split; [by rewrite Nat.add_0_r |]. apply Forall_app. split; [done |].
        by constructor.
    + split; [by destruct s |]. intros L (Hacc & Hdir & Hinv). unfold lazy_inv.
      rewrite Hslot in Hinv. destruct Hinv as [Hcons Hret].
      assert (Hnew : slot s (self_ (mkWorld (set_slot s (Some (next_obj w)) (self_ w))
                                      (heap w) (S (next_obj w)))) = Some (next_obj w))
        by (by destruct s).
      rewrite Hnew, constructions_app, returns_app, Hcons, Hret. simpl.
      rewrite !bool_decide_true by done. split; [| split].
      * apply accessed_app_first; [done |]. simpl.
        by rewrite bool_decide_true.
      * intros _. unfold can_access in Hcan. rewrite Hslot in Hcan.
        rewrite (bool_decide_false (None ≠ None)) in Hcan by (by intros []).
        rewrite orb_false_r in Hcan. apply orb_true_iff in Hcan as [Hc | Hc].
        -- left. by apply bool_decide_eq_true in Hc.
        -- right. apply bool_decide_eq_true in Hc.
           by destruct s.
      * split; [| by constructor].
        unfold constructions. simpl. rewrite bool_decide_true by done. simpl. lia.
  - apply keeps_quiet.
    + unfold after_access. destruct (slot s' (self_ w)); [done |]. by destruct s'.
    + unfold after_access. destruct (slot s' (self_ w)); [done |]. by destruct s, s'.
    + unfold access_events. destruct (slot s' (self_ w)); simpl;
        rewrite !bool_decide_false by done; done.
Qed.

Lemma preserves_ret (s : stage) {A} (a : A) : preserves s (ret a).
Proof. intros w. apply keeps_refl. Qed.

Lemma preserves_raise (s : stage) {A} (e : exn) : preserves s (raise (A := A) e).
Proof. intros w. apply keeps_refl. Qed.

Lemma preserves_get_self (s : stage) : preserves s get_self.
Proof. intros w. apply keeps_refl. Qed.

Lemma preserves_bind (s : stage) {A B} (m : M A) (k : A -> M B) :
  preserves s m -> (∀ a, preserves s (k a)) -> preserves s (m ≫= k).
Proof.
  intros Hm Hk w. rewrite bind_eval. specialize (Hm w).
  destruct (m w) as [[[a | e] w1] ev1]; [| exact Hm].
  specialize (Hk a w1). destruct (k a w1) as [[r w2] ev2].
  exact (keeps_trans _ _ _ _ _ _ Hm Hk).
Qed.

Lemma preserves_when (s : stage) (c : bool) (m : M unit) :
  preserves s m -> preserves s (when c m).
Proof. destruct c; [done |]. intros _. apply preserves_ret. Qed.

Lemma preserves_accessor (s s' : stage) : preserves s (accessor s').
Proof. intros w. apply keeps_accessor. Qed.

Lemma preserves_tokenize (s : stage) (text : string) : preserves s (tokenize tokenizer text).
Proof. intros w. by apply keeps_quiet. Qed.

Lemma preserves_run (s s' : stage) (o : obj) (l : loc) : preserves s (run engine s' o l).
Proof. intros w. by apply keeps_quiet. Qed.

Lemma preserves_merge (s : stage) (l : loc) : preserves s (merge merger l).
Proof. intros w. by apply keeps_quiet. Qed.

Lemma preserves_call (s : stage) (text : string) (tag parse entity merge_mwes : pyval) :
  preserves s (call text tag parse entity merge_mwes).
Proof.
  unfold __call__.
  repeat first
    [ apply preserves_raise | apply preserves_ret | apply preserves_get_self
    | apply preserves_tokenize | apply preserves_run | apply preserves_merge
    | apply (preserves_accessor s Tagger) | apply (preserves_accessor s Parser)
    | apply (preserves_accessor s Entity)
    | apply preserves_when
    | apply preserves_bind; [| intros ?]
    | match goal with |- preserves _ (if ?c then _ else _) => destruct c end
    | progress cbv zeta ].
Qed.

Lemma preserves_do_op (s : stage) (o : op) :
  preserves s (do_op tokenizer engine merger o).
Proof.
  destruct o; simpl; (apply preserves_bind; [| intros ?; apply preserves_ret]).
  - apply preserves_accessor.
  - apply (preserves_accessor s Tagger).
  - apply preserves_call.
Qed.

Lemma run_ops_keeps (s : stage) (ops : list op) (w : World) :
  keeps s w (run_ops tokenizer engine merger ops w).1
            (run_ops tokenizer engine merger ops w).2.
Proof.
  revert w. induction ops as [|o ops IH]; intros w; [apply keeps_refl |]. simpl.
  pose proof (preserves_do_op s o w) as Ho.
  destruct (do_op tokenizer engine merger o w) as [[r w1] ev1].
  specialize (IH w1). destruct (run_ops tokenizer engine merger ops w1) as [w2 ev2].
  exact (keeps_trans _ _ _ _ _ _ Ho IH).
Qed.

Lemma consistent_config (self self' : English) :
  config self' = config self -> consistent self' = consistent self.
Proof. unfold config, consistent. intros [= Hd Hp Ht He _]. by rewrite Hd, Hp, Ht, He. Qed.

Lemma init_consistent (LOCAL_DATA_DIR : string) (path_exists : string -> bool)
    (data_dir : option string) (m : obj) :
  consistent (__init__ LOCAL_DATA_DIR path_exists data_dir m) = true.
Proof.
  destruct data_dir as [d|]; [| done].
  unfold __init__, consistent. simpl. by destruct (String.eqb d "").
Qed.

(** Every state a client can reach from a new instance is consistent. *)
Lemma reachable_consistent (LOCAL_DATA_DIR : string) (path_exists : string -> bool)
    (data_dir : option string) (m : obj) (h : gmap loc Tokens) (n : obj) (ops : list op) :
  consistent
    (self_ (run_ops tokenizer engine merger ops
              (mkWorld (__init__ LOCAL_DATA_DIR path_exists data_dir m) h n)).1) = true.
Proof.
  destruct (run_ops_keeps Tagger ops
              (mkWorld (__init__ LOCAL_DATA_DIR path_exists data_dir m) h n)) as [Hcfg _].
  rewrite (consistent_config _ _ Hcfg). apply init_consistent.
Qed.

End PipelineFacts.

(** ** The lazy properties, whatever the constructors do *)

(** With constructors that return, the properties are those above. *)
Lemma accessor_Built (s : stage) : Lazy.accessor Built s = accessor s.
Proof. by destruct s. Qed.

(** *** One read *)






(** *** Logs and outcomes *)









Lemma unreturned_stable (R : list (result obj)) :
  existsb is_ok R = false -> stable R = true.
Proof. induction R as [|[o | e] R IH]; simpl; [done | done | exact IH]. Qed.




(** *** The invariant *)





(** Reads made through [do_op] are reads whose constructor calls return. *)
Lemma run_ops_reads (tokenizer : string -> Tokens) (engine : stage -> Tokens -> Tokens)
    (merger : Tokens -> Tokens) (ss : list stage) (w : World) :
  run_ops tokenizer engine merger (map OpGet ss) w
  = ((Lazy.run_reads (map (λ s, (s, Built)) ss) w).1.1,
     (Lazy.run_reads (map (λ s, (s, Built)) ss) w).1.2).
Proof.
  revert w. induction ss as [|s ss IH]; intros w; [done |].
  cbn [map run_ops Lazy.run_reads do_op]. rewrite (accessor_Built s), bind_eval.
  destruct (accessor s w) as [[[o | e] w1] ev1]; cbn [ret]; rewrite IH;
    destruct (Lazy.run_reads _ w1) as [[w2 ev2] out]; cbn [fst snd];
    by rewrite ?app_nil_r.
Qed.


(** A constructor that raises is called again by the next read; once it
    has returned, the object is kept and no read calls it any more. *)
Example constructor_called_again_after_raise :
  let e := IOError "model file not readable" in
  let x := Lazy.run_reads [(Tagger, Fails e); (Tagger, Fails e); (Tagger, Built);
                             (Tagger, Fails e)] Fixture.en_nlp in
  (calls Tagger x.1.2, constructions Tagger x.1.2, Lazy.results Tagger x.2)
  = (3, 1, [Raise e; Raise e; Ok 1; Ok 1]).
Proof. vm_compute. reflexivity. Qed.

Lemma call_incompatible_arguments_witness :
  py_eq py_False py_False = true ∧
  (py_eq py_True py_True = true ∨ py_eq parse_if_model_present py_True = true) ∧
  ∃ msg, Fixture.call "Hello world." py_False py_True parse_if_model_present py_False Fixture.en_nlp
         = (Raise (ValueError msg), Fixture.en_nlp, []).
Proof.
  split; [reflexivity |]. split; [left; reflexivity |].
  apply (call_incompatible_arguments Fixture.tokenizer Fixture.engine Fixture.merger);
    [reflexivity | left; reflexivity].
Defined.

Lemma explicit_request_without_model_witness :
  Parser ≠ Tagger ∧
  py_eq py_True py_False = false ∧
  py_eq (requested_arg Parser py_True py_True parse_if_model_present) py_True = true ∧
  has_model Parser (self_ Fixture.bare_nlp) = false ∧
  ∃ msg, result_of (Fixture.call "Hello world." py_True py_True parse_if_model_present
                      py_False Fixture.bare_nlp) = Raise (IOError msg)
         ∧ ∀ msg', IOError msg ≠ ValueError msg'.
Proof.
  split; [discriminate |]. repeat (split; [reflexivity |]).
  apply (explicit_request_without_model Fixture.tokenizer Fixture.engine Fixture.merger Parser);
    [discriminate | reflexivity ..].
Defined.

(** C2, as the specification words it, fails for the tagger: on an
    instance without models, [nlp(text, tag=True)] returns. *)
Lemma tag_True_without_tagger_model_returns :
  ¬ spec_model_not_found Tagger
      (result_of (Fixture.call "Hello world." py_True parse_if_model_present
                    parse_if_model_present py_False Fixture.bare_nlp))
      (self_ Fixture.bare_nlp) py_True parse_if_model_present parse_if_model_present.
Proof.
  intros Hspec. destruct Hspec as [msg Hmsg]; [reflexivity | reflexivity |].
  vm_compute in Hmsg. discriminate.
Qed.



Lemma odd_request_bypasses_checks_witness :
  consistent (self_ Fixture.en_nlp) = true ∧
  truthy (PyInt 2) = true ∧
  py_eq (PyInt 2) py_True = false ∧
  py_eq (PyInt 2) (PyInt (-1)) = false ∧
  request_passes py_False parse_if_model_present (has_entity_model (self_ Fixture.en_nlp)) = true ∧
  request_passes py_False parse_if_model_present (has_parser_model (self_ Fixture.en_nlp)) = true ∧
  let rp := Fixture.call "Hello world." py_False (PyInt 2) parse_if_model_present
              py_False Fixture.en_nlp in
  let re := Fixture.call "Hello world." py_False parse_if_model_present (PyInt 2)
              py_False Fixture.en_nlp in
  (is_ok (result_of rp) = true
   ∧ stage_ran Parser (events_of rp) = has_parser_model (self_ Fixture.en_nlp))
  ∧ (is_ok (result_of re) = true
     ∧ stage_ran Entity (events_of re) = has_entity_model (self_ Fixture.en_nlp)).
Proof.
  repeat (split; [reflexivity |]).
  apply (odd_request_bypasses_checks Fixture.tokenizer Fixture.engine Fixture.merger "Hello world."
           py_False (PyInt 2) parse_if_model_present parse_if_model_present py_False
           Fixture.en_nlp); reflexivity.
Defined.

Lemma fixture_parser_untagged (b : Tokens) :
  untagged b = true -> untagged (Fixture.engine Parser b) = true.
Proof. induction b as [|t b IH]; simpl; [done |]. intros H. destruct (bool_decide _); [auto | done]. Qed.

Lemma fixture_entity_untagged (b : Tokens) :
  untagged b = true -> untagged (Fixture.engine Entity b) = true.
Proof. induction b as [|t b IH]; simpl; [done |]. intros H. destruct (bool_decide _); [auto | done]. Qed.

Lemma tagger_model_absent_noop_witness :
  consistent (self_ Fixture.parser_only_nlp) = true ∧
  has_tagger_model (self_ Fixture.parser_only_nlp) = false ∧
  request_passes py_True parse_if_model_present
    (has_parser_model (self_ Fixture.parser_only_nlp)) = true ∧
  request_passes py_True parse_if_model_present
    (has_entity_model (self_ Fixture.parser_only_nlp)) = true ∧
  untagged (Fixture.tokenizer Fixture.sentence) = true ∧
  (∀ b, untagged b = true -> untagged (Fixture.engine Parser b) = true) ∧
  (∀ b, untagged b = true -> untagged (Fixture.engine Entity b) = true) ∧
  (truthy py_False = false
   ∨ (∀ b, untagged b = true -> untagged (Fixture.merger b) = true)) ∧
  let r := Fixture.call Fixture.sentence py_True parse_if_model_present parse_if_model_present
             py_False Fixture.parser_only_nlp in
  ∃ l b cp ce cm,
    result_of r = Ok l
    ∧ stage_ran Tagger (events_of r) = false
    ∧ constructions Tagger (events_of r) = 0
    ∧ _tagger (self_ (world_of r)) = _tagger (self_ Fixture.parser_only_nlp)
    ∧ heap (world_of r) !! l = Some b
    ∧ b = applied cm Fixture.merger (applied ce (Fixture.engine Entity)
            (applied cp (Fixture.engine Parser) (Fixture.tokenizer Fixture.sentence)))
    ∧ untagged b = true.
Proof.
  repeat (split; [reflexivity |]).
  split; [exact fixture_parser_untagged |]. split; [exact fixture_entity_untagged |].
  split; [left; reflexivity |].
  apply (tagger_model_absent_noop Fixture.tokenizer Fixture.engine Fixture.merger Fixture.sentence
           parse_if_model_present parse_if_model_present py_False Fixture.parser_only_nlp);
    [reflexivity | reflexivity | reflexivity | reflexivity | reflexivity
    | exact fixture_parser_untagged | exact fixture_entity_untagged | left; reflexivity].
Defined.

Lemma call_returns_tokenizer_buffer_witness :
  result_of (Fixture.call Fixture.sentence py_True parse_if_model_present parse_if_model_present
               py_False Fixture.en_nlp) = Ok 1%positive ∧
  let r := Fixture.call Fixture.sentence py_True parse_if_model_present parse_if_model_present
             py_False Fixture.en_nlp in
  (1%positive ∉ dom (heap Fixture.en_nlp))
  ∧ dom (heap (world_of r)) = {[1%positive]} ∪ dom (heap Fixture.en_nlp)
  ∧ (∀ l', l' ≠ 1%positive -> heap (world_of r) !! l' = heap Fixture.en_nlp !! l')
  ∧ (∃ evs, events_of r = EvTokenize Fixture.sentence 1%positive :: evs
            ∧ forallb (on_buffer 1%positive) evs = true)
  ∧ (∃ ct cp ce cm,
       heap (world_of r) !! 1%positive
       = Some (applied cm Fixture.merger (applied ce (Fixture.engine Entity)
                 (applied cp (Fixture.engine Parser)
                    (applied ct (Fixture.engine Tagger) (Fixture.tokenizer Fixture.sentence)))))).
Proof.
  split; [vm_compute; reflexivity |].
  apply (call_returns_tokenizer_buffer Fixture.tokenizer Fixture.engine Fixture.merger Fixture.sentence
           py_True parse_if_model_present parse_if_model_present py_False Fixture.en_nlp
           1%positive).
  vm_compute. reflexivity.
Defined.

Example lazy_parser_example :
  let ops := [OpGet Parser;
              OpCall "Hello world." py_True parse_if_model_present parse_if_model_present
                py_False;
              OpGet Parser] in
  let L := (run_ops Fixture.tokenizer Fixture.engine Fixture.merger ops Fixture.en_nlp).2 in
  (returns Parser L, constructions Parser L, constructions Tagger L) = ([1; 1; 1], 1, 1).
Proof. vm_compute. reflexivity. Qed.

(** * Further properties of the pipeline *)

Section MoreFacts.

Variable tokenizer : string -> Tokens.
Variable engine : stage -> Tokens -> Tokens.
Variable merger : Tokens -> Tokens.

Local Abbreviation call := (__call__ tokenizer engine merger).
Local Abbreviation outcome := (call_outcome tokenizer engine merger).

Lemma not_passes (tag v : pyval) (present : bool) :
  py_eq v py_True && py_eq tag py_False = false ->
  py_eq (resolve tag v present) py_True && negb present = false ->
  request_passes tag v present = true.
Proof.
  unfold request_passes, resolve. intros Harg.
  destruct (py_eq v py_True) eqn:Hv.
  - rewrite (py_eq_True_not_auto _ Hv). simpl. rewrite Hv. simpl in Harg.
    rewrite Harg. simpl. by intros ->.
  - done.
Qed.

Lemma model_check_fires (tag v : pyval) (present : bool) :
  py_eq (resolve tag v present) py_True && negb present = true ->
  py_eq v py_True = true ∧ present = false.
Proof.
  unfold resolve. intros [Hv Hp]%andb_true_iff. apply negb_true_iff in Hp. subst present.
  split; [| done].
  destruct (py_eq v (PyInt (-1))); [| done].
  by destruct (py_eq tag py_False).
Qed.

Lemma step_outcome (c : bool) (s : stage) (l : loc) (w : World) :
  ((c = true -> can_access s w = true)
   ∧ when c (accessor s ≫= λ o, run engine s o l) w
     = (Ok tt, step_world engine c s l w, step_events c s l w))
  ∨ (c = true ∧ can_access s w = false
     ∧ ∃ msg, when c (accessor s ≫= λ o, run engine s o l) w
              = (Raise (TypeError msg), w, [EvAccess s])).
Proof.
  destruct c.
  - destruct (can_access s w) eqn:Hacc.
    + left. split; [done |]. by apply step_eval.
    + right. split; [done |]. split; [done |].
      destruct (accessor_raises s w Hacc) as [msg Hr]. exists msg.
      simpl. by rewrite bind_eval, Hr.
  - left. split; [done |]. by apply step_eval.
Qed.

(** Every call ends in one of the seven outcomes. *)
Lemma call_outcome_holds (text : string) (tag parse entity merge_mwes : pyval) (w : World) :
  outcome text tag parse entity merge_mwes w (call text tag parse entity merge_mwes w).
Proof.
  rewrite call_eval.
  destruct (py_eq parse py_True && py_eq tag py_False) eqn:Hap; [by constructor |].
  destruct (py_eq entity py_True && py_eq tag py_False) eqn:Hae; [by constructor |].
  assert (Htag : py_eq parse py_True || py_eq entity py_True = true ->
                 py_eq tag py_False = false).
  { destruct (py_eq tag py_False); [| done].
    rewrite andb_true_r in Hap, Hae. by rewrite Hap, Hae. }
  destruct (py_eq (resolve tag parse _) py_True && negb _) eqn:Hmp.
  { apply model_check_fires in Hmp as [Hp Hm].
    apply OutNoParser; [| done | done]. apply Htag. by rewrite Hp. }
  pose proof (not_passes _ _ _ Hap Hmp) as Hpp.
  destruct (py_eq (resolve tag entity _) py_True && negb _) eqn:Hme.
  { apply model_check_fires in Hme as [He Hm].
    apply OutNoEntity; [| done | done | done]. apply Htag. rewrite He. apply orb_true_r. }
  pose proof (not_passes _ _ _ Hae Hme) as Hpe.
  unfold later_stages. rewrite bind_eval.
  match goal with |- context [when ?c (accessor Parser ≫= _) ?w0] =>
    destruct (step_outcome c Parser (fresh (dom (heap w))) w0)
      as [[Hcp ->] | (Hcp & Hnp & msg & ->)]
  end.
  2:{ by apply (OutParserProperty tokenizer engine merger text tag parse entity merge_mwes w msg). }
  rewrite bind_eval.
  match goal with |- context [when ?c (accessor Entity ≫= _) ?w0] =>
    destruct (step_outcome c Entity (fresh (dom (heap w))) w0)
      as [[Hce ->] | (Hce & Hne & msg & ->)]
  end.
  2:{ rewrite app_assoc.
      by apply (OutEntityProperty tokenizer engine merger text tag parse entity merge_mwes w msg). }
  rewrite bind_eval, merge_eval. simpl. rewrite app_nil_r.
  change (EvTokenize text ?l :: ?a ++ ?b) with ((EvTokenize text l :: a) ++ b).
  rewrite app_assoc.
  by apply (OutReturn tokenizer engine merger text tag parse entity merge_mwes w).
Qed.


Lemma truthy_resolve (tag v : pyval) (present : bool) :
  truthy (resolve tag v present) = true -> truthy v = true.
Proof.
  unfold resolve. destruct (py_eq v (PyInt (-1)) && py_eq tag py_False); [done |].
  by destruct (py_eq v (PyInt (-1)) && negb present).
Qed.

Lemma enabled_request_model (s : stage) (tag parse entity : pyval) (self : English) :
  enabled s tag parse entity self = true ->
  truthy (requested_arg s tag parse entity) = true ∧ has_model s self = true.
Proof.
  destruct s; simpl; intros [Hv Hm]%andb_true_iff; split; try done;
    by apply truthy_resolve in Hv.
Qed.

Lemma constructions_step_events_pos (c : bool) (s s' : stage) (l : loc) (w : World) :
  0 < constructions s (step_events c s' l w) -> c = true ∧ s' = s.
Proof.
  destruct (decide (s = s')) as [<- | Hne].
  - destruct c; [done |]. simpl. unfold constructions. simpl. lia.
  - rewrite constructions_step_events by done. lia.
Qed.

Lemma constructions_merge_events (c : bool) (s : stage) (l : loc) :
  constructions s (merge_events c l) = 0.
Proof. by destruct c. Qed.

Lemma stage_ran_tagged_events (s : stage) (text : string) (tag parse entity : pyval)
    (w : World) :
  stage_ran s (tagged_events tokenizer text tag parse entity w) = true ->
  enabled s tag parse entity (self_ w) = true.
Proof.
  unfold tagged_events. simpl. rewrite stage_ran_step_events.
  intros [Hc Hs]%andb_true_iff. apply bool_decide_eq_true in Hs. by subst s.
Qed.

Lemma stage_ran_parsed_events (s : stage) (text : string) (tag parse entity : pyval)
    (w : World) :
  stage_ran s (parsed_events tokenizer engine text tag parse entity w) = true ->
  enabled s tag parse entity (self_ w) = true.
Proof.
  unfold parsed_events. rewrite stage_ran_app, stage_ran_step_events.
  intros [H | [Hc Hs]%andb_true_iff]%orb_true_iff.
  - by apply (stage_ran_tagged_events s text tag parse entity w).
  - apply bool_decide_eq_true in Hs. by subst s.
Qed.

Lemma constructions_tagged_events (s : stage) (text : string) (tag parse entity : pyval)
    (w : World) :
  0 < constructions s (tagged_events tokenizer text tag parse entity w) ->
  enabled s tag parse entity (self_ w) = true.
Proof.
  unfold tagged_events.
  change (EvTokenize text ?l :: ?a) with ([EvTokenize text l] ++ a).
  rewrite constructions_app. simpl.
  intros [Hc <-]%constructions_step_events_pos. done.
Qed.

Lemma constructions_parsed_events (s : stage) (text : string) (tag parse entity : pyval)
    (w : World) :
  0 < constructions s (parsed_events tokenizer engine text tag parse entity w) ->
  enabled s tag parse entity (self_ w) = true.
Proof.
  unfold parsed_events. rewrite constructions_app. intros Hpos.
  destruct (decide (0 < constructions s (tagged_events tokenizer text tag parse entity w)))
    as [Ht | Ht].
  - by apply (constructions_tagged_events s text tag parse entity w).
  - assert (Hp : 0 < constructions s
                       (step_events (enabled Parser tag parse entity (self_ w)) Parser
                          (new_buffer w) (tagged tokenizer engine text tag parse entity w)))
      by lia.
    apply constructions_step_events_pos in Hp as [Hc <-]. done.
Qed.

(** X1 (safety). Whatever the arguments and the state, and however the
    call ends, a stage engine is applied or constructed by [__call__] only
    if the request for the stage is truthy and the model of the stage is
    present. *)
Theorem stage_needs_request_and_model (s : stage) (text : string)
    (tag parse entity merge_mwes : pyval) (w : World) :
  let evs := events_of (call text tag parse entity merge_mwes w) in
  stage_ran s evs || (0 <? constructions s evs) = true ->
  truthy (requested_arg s tag parse entity) = true ∧ has_model s (self_ w) = true.
Proof.
  intros evs. subst evs. intros Hev. apply enabled_request_model. revert Hev.
  generalize (call_outcome_holds text tag parse entity merge_mwes w).
  generalize (call text tag parse entity merge_mwes w). intros x Hout.
  assert (Hsplit : ∀ evs, stage_ran s evs || (0 <? constructions s evs) = true ->
                          stage_ran s evs = true ∨ 0 < constructions s evs).
  { intros evs [H | H%Nat.ltb_lt]%orb_true_iff; auto. }
  intros Hev%Hsplit. clear Hsplit.
  destruct Hout; unfold events_of in Hev; cbn [snd] in Hev.
  - destruct Hev as [? | Hc]; [done | unfold constructions in Hc; simpl in Hc; lia].
  - destruct Hev as [? | Hc]; [done | unfold constructions in Hc; simpl in Hc; lia].
  - destruct Hev as [Hr | Hc].
    + by apply (stage_ran_tagged_events s text tag parse entity w).
    + by apply (constructions_tagged_events s text tag parse entity w).
  - destruct Hev as [Hr | Hc].
    + by apply (stage_ran_tagged_events s text tag parse entity w).
    + by apply (constructions_tagged_events s text tag parse entity w).
  - rewrite stage_ran_app, constructions_app in Hev. simpl in Hev.
    rewrite orb_false_r, Nat.add_0_r in Hev. destruct Hev as [Hr | Hc].
    + by apply (stage_ran_tagged_events s text tag parse entity w).
    + by apply (constructions_tagged_events s text tag parse entity w).
  - rewrite stage_ran_app, constructions_app in Hev. simpl in Hev.
    rewrite orb_false_r, Nat.add_0_r in Hev. destruct Hev as [Hr | Hc].
    + by apply (stage_ran_parsed_events s text tag parse entity w).
    + by apply (constructions_parsed_events s text tag parse entity w).
  - rewrite !stage_ran_app, !constructions_app, stage_ran_step_events,
      stage_ran_merge_events, constructions_merge_events, orb_false_r, Nat.add_0_r in Hev.
    destruct Hev as [[Hr | [Hc Hs]%andb_true_iff]%orb_true_iff | Hc].
    + by apply (stage_ran_parsed_events s text tag parse entity w).
    + apply bool_decide_eq_true in Hs. by subst s.
    + destruct (decide (0 < constructions s
                              (parsed_events tokenizer engine text tag parse entity w)))
        as [Hp | Hp].
      * by apply (constructions_parsed_events s text tag parse entity w).
      * assert (He : 0 < constructions s
                           (step_events (enabled Entity tag parse entity (self_ w)) Entity
                              (new_buffer w)
                              (parsed tokenizer engine text tag parse entity w))) by lia.
        apply constructions_step_events_pos in He as [He <-]. done.
Qed.






Lemma buffer_ops_app (evs evs' : list event) :
  buffer_ops (evs ++ evs') = buffer_ops evs ++ buffer_ops evs'.
Proof.
  induction evs as [|e evs IH]; [done |]. destruct e; simpl; by rewrite ?IH.
Qed.

Lemma buffer_ops_step_events (c : bool) (s : stage) (l : loc) (w : World) :
  buffer_ops (step_events c s l w) = if c then [BRun s] else [].
Proof.
  unfold step_events, access_events. destruct c; [| done].
  by destruct (slot s (self_ w)).
Qed.

Lemma buffer_ops_merge_events (c : bool) (l : loc) :
  buffer_ops (merge_events c l) = if c then [BMerge] else [].
Proof. by destruct c. Qed.

Lemma buffer_ops_tagged_events (text : string) (tag parse entity : pyval) (w : World) :
  buffer_ops (tagged_events tokenizer text tag parse entity w)
  = BTokenize :: (if enabled Tagger tag parse entity (self_ w) then [BRun Tagger] else []).
Proof. unfold tagged_events. simpl. by rewrite buffer_ops_step_events. Qed.

Lemma tagged_lookup (text : string) (tag parse entity : pyval) (w : World) :
  heap (tagged tokenizer engine text tag parse entity w) !! new_buffer w
  = Some (applied (enabled Tagger tag parse entity (self_ w)) (engine Tagger)
            (tokenizer text)).
Proof.
  unfold tagged. rewrite step_world_lookup. unfold tokenized. simpl.
  by rewrite lookup_insert_eq.
Qed.

(** X3 (error behaviour). A model-not-found error is raised only after
    the text has been tokenized and, if the tagger is enabled, tagged:
    the failed call leaves a new buffer behind, holding the tokenizer's
    output as the tagger annotated it, and has run no later stage. (The
    argument error, by contrast, leaves no trace.) *)
Theorem model_error_after_tagging (text : string) (tag parse entity merge_mwes : pyval)
    (w : World) (msg : string) :
  result_of (call text tag parse entity merge_mwes w) = Raise (IOError msg) ->
  let r := call text tag parse entity merge_mwes w in
  let tagging := truthy tag && has_tagger_model (self_ w) in
  (new_buffer w ∉ dom (heap w))
  ∧ heap (world_of r) !! new_buffer w
    = Some (applied tagging (engine Tagger) (tokenizer text))
  ∧ buffer_ops (events_of r) = BTokenize :: (if tagging then [BRun Tagger] else []).
Proof.
  intros Hr r tagging. subst r. revert Hr.
  generalize (call_outcome_holds text tag parse entity merge_mwes w).
  generalize (call text tag parse entity merge_mwes w). intros x Hout.
  destruct Hout; unfold result_of, world_of, events_of; cbn [fst snd]; try done; intros _.
  - split; [unfold new_buffer; apply is_fresh |].
    split; [apply tagged_lookup | apply buffer_ops_tagged_events].
  - split; [unfold new_buffer; apply is_fresh |].
    split; [apply tagged_lookup | apply buffer_ops_tagged_events].
Qed.

(** X4 (order). However a call ends, what it has done to buffers by then
    is, in this order and each at most once: tokenize, tag, parse,
    recognize entities, merge. *)
Theorem call_follows_pipeline_order (text : string) (tag parse entity merge_mwes : pyval)
    (w : World) :
  sublist (buffer_ops (events_of (call text tag parse entity merge_mwes w))) pipeline_order.
Proof.
  generalize (call_outcome_holds text tag parse entity merge_mwes w).
  generalize (call text tag parse entity merge_mwes w). intros x Hout.
  destruct Hout; unfold events_of; cbn [snd]; unfold parsed_events;
    rewrite ?buffer_ops_app, ?buffer_ops_tagged_events, ?buffer_ops_step_events,
      ?buffer_ops_merge_events;
    repeat match goal with |- context [if ?c then _ else _] => destruct c end;
    simpl; unfold pipeline_order;
    repeat first [apply sublist_nil | apply sublist_skip | apply sublist_cons].
Qed.

Lemma parsed_lookup (text : string) (tag parse entity : pyval) (w : World) :
  heap (parsed tokenizer engine text tag parse entity w) !! new_buffer w
  = Some (applied (enabled Parser tag parse entity (self_ w)) (engine Parser)
            (applied (enabled Tagger tag parse entity (self_ w)) (engine Tagger)
               (tokenizer text))).
Proof. unfold parsed. by rewrite step_world_lookup, tagged_lookup. Qed.

(** What a call that returns has done, in closed form. *)
Lemma returned_call (text : string) (tag parse entity merge_mwes : pyval) (w : World)
    (l : loc) :
  result_of (call text tag parse entity merge_mwes w) = Ok l ->
  let r := call text tag parse entity merge_mwes w in
  let on s := enabled s tag parse entity (self_ w) in
  l = new_buffer w
  ∧ heap (world_of r) !! l
    = Some (applied (merging merge_mwes (self_ w)) merger
              (applied (on Entity) (engine Entity)
                 (applied (on Parser) (engine Parser)
                    (applied (on Tagger) (engine Tagger) (tokenizer text)))))
  ∧ (∀ s, stage_ran s (events_of r) = on s)
  ∧ buffer_ops (events_of r)
    = BTokenize :: (if on Tagger then [BRun Tagger] else [])
      ++ (if on Parser then [BRun Parser] else [])
      ++ (if on Entity then [BRun Entity] else [])
      ++ (if merging merge_mwes (self_ w) then [BMerge] else []).
Proof.
  intros Hr r on. subst r. revert Hr.
  generalize (call_outcome_holds text tag parse entity merge_mwes w).
  generalize (call text tag parse entity merge_mwes w). intros x Hout.
  destruct Hout; unfold result_of, world_of, events_of; cbn [fst snd]; try done.
  intros [= <-]. split; [done |]. split; [| split].
  - rewrite merge_world_lookup. unfold recognized.
    by rewrite step_world_lookup, parsed_lookup.
  - intros s. unfold parsed_events, tagged_events.
    change (EvTokenize text ?l :: ?a) with ([EvTokenize text l] ++ a).
    rewrite !stage_ran_app, !stage_ran_step_events, stage_ran_merge_events.
    subst on. destruct s; simpl;
      rewrite ?andb_false_r, ?andb_true_r, ?orb_false_r; done.
  - unfold parsed_events.
    rewrite !buffer_ops_app, buffer_ops_tagged_events, !buffer_ops_step_events,
      buffer_ops_merge_events.
    by rewrite <- !app_assoc.
Qed.

(** X5 (functional behaviour). When a call returns, the buffer it returns
    holds the tokenizer's output passed through tagger, parser, entity
    recognizer and merger, in this order, where a stage is applied exactly
    if its request, with "auto" resolved, is truthy and its model is
    present, and the merger exactly if [merge_mwes] is truthy and there is
    a merger; and these are exactly the stages the call has run. *)
Theorem call_denotation (text : string) (tag parse entity merge_mwes : pyval) (w : World)
    (l : loc) :
  result_of (call text tag parse entity merge_mwes w) = Ok l ->
  let r := call text tag parse entity merge_mwes w in
  let on s := enabled s tag parse entity (self_ w) in
  heap (world_of r) !! l
  = Some (applied (merging merge_mwes (self_ w)) merger
            (applied (on Entity) (engine Entity)
               (applied (on Parser) (engine Parser)
                  (applied (on Tagger) (engine Tagger) (tokenizer text)))))
  ∧ (∀ s, stage_ran s (events_of r) = on s)
  ∧ buffer_ops (events_of r)
    = BTokenize :: (if on Tagger then [BRun Tagger] else [])
      ++ (if on Parser then [BRun Parser] else [])
      ++ (if on Entity then [BRun Entity] else [])
      ++ (if merging merge_mwes (self_ w) then [BMerge] else []).
Proof.
  intros Hr. by destruct (returned_call text tag parse entity merge_mwes w l Hr) as (_ & H).
Qed.

(** X6 (edge case). The argument check compares [tag] with [False], the
    tagging stage tests its truth: a [tag] that is falsy without being
    [== False], such as [None], passes the check, so that a truthy request
    for the parser is honoured and the parser runs on a buffer the tagger
    never saw. *)
Theorem falsy_tag_parses_untagged (text : string) (tag parse entity merge_mwes : pyval)
    (w : World) (l : loc) :
  truthy tag = false ->
  py_eq tag py_False = false ->
  truthy parse = true ->
  has_parser_model (self_ w) = true ->
  result_of (call text tag parse entity merge_mwes w) = Ok l ->
  let r := call text tag parse entity merge_mwes w in
  stage_ran Tagger (events_of r) = false
  ∧ stage_ran Parser (events_of r) = true
  ∧ heap (world_of r) !! l
    = Some (applied (merging merge_mwes (self_ w)) merger
              (applied (enabled Entity tag parse entity (self_ w)) (engine Entity)
                 (engine Parser (tokenizer text)))).
Proof.
  intros Htag Hnf Hparse Hmodel Hr r. subst r.
  destruct (returned_call text tag parse entity merge_mwes w l Hr) as (_ & Hc & Hran & _).
  assert (Hon : enabled Parser tag parse entity (self_ w) = true).
  { simpl. rewrite Hmodel. unfold resolve. rewrite Hnf, !andb_false_r. simpl.
    by rewrite Hparse. }
  assert (Hoff : enabled Tagger tag parse entity (self_ w) = false).
  { simpl. by rewrite Htag. }
  rewrite !Hran, Hon, Hoff. split; [done |]. split; [done |].
  by rewrite Hc, Hon, Hoff.
Qed.

(** X7 (error behaviour). When the request for the parser is [== True]
    and cannot be served, the error names the parser, whatever the request
    for the entity stage is: the argument error if [tag == False],
    otherwise the model-not-found error. *)
Theorem parser_error_reported_first (text : string) (tag parse entity merge_mwes : pyval)
    (w : World) :
  py_eq parse py_True = true ->
  py_eq tag py_False = true ∨ has_parser_model (self_ w) = false ->
  result_of (call text tag parse entity merge_mwes w)
  = Raise (if py_eq tag py_False then ValueError msg_tag_parse else IOError msg_no_parser).
Proof.
  intros Hp Hcause.
  generalize (call_outcome_holds text tag parse entity merge_mwes w).
  generalize (call text tag parse entity merge_mwes w). intros x Hout.
  destruct Hout; unfold result_of; cbn [fst]; unfold request_passes in *;
    rewrite ?Hp in *;
    destruct (py_eq tag py_False), (py_eq entity py_True),
      (has_parser_model (self_ w)), (has_entity_model (self_ w));
    simpl in *; try done; destruct Hcause; done.
Qed.

(** *** Client programs *)

Lemma do_op_effect (o : op) (w : World) :
  let x := match o with
           | OpGet s => (world_of (accessor s w), events_of (accessor s w))
           | OpTags => (world_of (accessor Tagger w), events_of (accessor Tagger w))
           | OpCall text tag parse entity merge_mwes =>
               (world_of (call text tag parse entity merge_mwes w),
                events_of (call text tag parse entity merge_mwes w))
           end in
  world_of (do_op tokenizer engine merger o w) = x.1
  ∧ events_of (do_op tokenizer engine merger o w) = x.2.
Proof.
  destruct o as [s | | text tg pa en mm]; simpl; rewrite bind_eval.
  - destruct (accessor s w) as [[[a | e] w1] ev1]; unfold world_of, events_of; simpl;
      by rewrite ?app_nil_r.
  - unfold tags. change self_tagger with (accessor Tagger).
    destruct (accessor Tagger w) as [[[a | e] w1] ev1]; unfold world_of, events_of; simpl;
      by rewrite ?app_nil_r.
  - destruct (call text tg pa en mm w) as [[[a | e] w1] ev1];
      unfold world_of, events_of; simpl; by rewrite ?app_nil_r.
Qed.

Section Programs.

(** A relation between the state a piece of execution starts in, the state
    it ends in and its events, closed under sequencing. *)
Variable R : World -> World -> list event -> Prop.
Hypothesis R_refl : ∀ w, R w w [].
Hypothesis R_trans : ∀ w1 w2 w3 e1 e2, R w1 w2 e1 -> R w2 w3 e2 -> R w1 w3 (e1 ++ e2).

(** If every operation stays within [R], every client program does. *)
Lemma run_ops_steps :
  (∀ o w, R w (world_of (do_op tokenizer engine merger o w))
              (events_of (do_op tokenizer engine merger o w))) ->
  ∀ ops w, R w (run_ops tokenizer engine merger ops w).1
               (run_ops tokenizer engine merger ops w).2.
Proof.
  intros Hop ops. induction ops as [|o ops IH]; intros w; [apply R_refl |]. simpl.
  specialize (Hop o w). unfold world_of, events_of in Hop.
  destruct (do_op tokenizer engine merger o w) as [[r w1] ev1].
  specialize (IH w1). destruct (run_ops tokenizer engine merger ops w1) as [w2 ev2].
  exact (R_trans _ _ _ _ _ Hop IH).
Qed.

(** The effects a program is made of: a read of a lazy property that
    returns or raises, an engine applied to a buffer (the engine is the
    one in the slot, and the model of the stage is present), a
    tokenization, a merge. *)
Hypothesis R_access :
  ∀ s w, can_access s w = true -> R w (after_access s w) (access_events s w).
Hypothesis R_access_raises :
  ∀ s w, can_access s w = false -> R w w [EvAccess s].
Hypothesis R_run :
  ∀ s o l w, slot s (self_ w) = Some o -> has_model s (self_ w) = true ->
             R w (mkWorld (self_ w) (alter (engine s) l (heap w)) (next_obj w))
               [EvRun s o l].
Hypothesis R_tokenize :
  ∀ text w, R w (tokenized tokenizer text w) [EvTokenize text (new_buffer w)].
Hypothesis R_merge :
  ∀ c l w, R w (merge_world merger c l w) (merge_events c l).

Lemma R_accessor (s : stage) (w : World) :
  R w (world_of (accessor s w)) (events_of (accessor s w)).
Proof.
  destruct (can_access s w) eqn:Hacc.
  - rewrite (accessor_returns s w Hacc). by apply R_access.
  - destruct (accessor_raises s w Hacc) as [msg ->]. by apply R_access_raises.
Qed.

Lemma after_access_slot (s : stage) (w : World) :
  slot s (self_ (after_access s w)) = Some (engine_of s w).
Proof.
  unfold after_access, engine_of. destruct (slot s (self_ w)) eqn:Hs; [done |].
  by destruct s.
Qed.

Lemma after_access_config (s : stage) (w : World) :
  config (self_ (after_access s w)) = config (self_ w).
Proof. unfold after_access. destruct (slot s (self_ w)); [done |]. by destruct s. Qed.

Lemma step_world_config (c : bool) (s : stage) (l : loc) (w : World) :
  config (self_ (step_world engine c s l w)) = config (self_ w).
Proof. destruct c; [| done]. apply after_access_config. Qed.

Lemma has_model_config (s : stage) (self self' : English) :
  config self' = config self -> has_model s self' = has_model s self.
Proof. unfold config. intros [= _ Hp Ht He _]. by destruct s. Qed.

Lemma R_step (c : bool) (s : stage) (l : loc) (w : World) :
  (c = true -> can_access s w = true) ->
  (c = true -> has_model s (self_ w) = true) ->
  R w (step_world engine c s l w) (step_events c s l w).
Proof.
  intros Hacc Hmodel. destruct c; [| apply R_refl]. simpl.
  eapply R_trans; [apply R_access; auto |].
  pose proof (R_run s (engine_of s w) l (after_access s w) (after_access_slot s w)) as Hrun.
  assert (Hheap : heap (after_access s w) = heap w).
  { unfold after_access. by destruct (slot s (self_ w)). }
  rewrite Hheap in Hrun. apply Hrun.
  rewrite (has_model_config _ _ _ (after_access_config s w)). auto.
Qed.

Lemma enabled_has_model (s : stage) (tag parse entity : pyval) (self : English) :
  enabled s tag parse entity self = true -> has_model s self = true.
Proof. intros H. exact (proj2 (enabled_request_model _ _ _ _ _ H)). Qed.

Lemma tagged_config (text : string) (tag parse entity : pyval) (w : World) :
  config (self_ (tagged tokenizer engine text tag parse entity w)) = config (self_ w).
Proof. unfold tagged. by rewrite step_world_config. Qed.

Lemma parsed_config (text : string) (tag parse entity : pyval) (w : World) :
  config (self_ (parsed tokenizer engine text tag parse entity w)) = config (self_ w).
Proof. unfold parsed. by rewrite step_world_config, tagged_config. Qed.

Lemma R_tagged (text : string) (tag parse entity : pyval) (w : World) :
  R w (tagged tokenizer engine text tag parse entity w)
    (tagged_events tokenizer text tag parse entity w).
Proof.
  unfold tagged, tagged_events.
  change (EvTokenize text ?l :: ?a) with ([EvTokenize text l] ++ a).
  eapply R_trans; [apply R_tokenize |]. apply R_step.
  - intros _. reflexivity.
  - apply enabled_has_model.
Qed.

Lemma R_parsed (text : string) (tag parse entity : pyval) (w : World) :
  (enabled Parser tag parse entity (self_ w) = true ->
   can_access Parser (tagged tokenizer engine text tag parse entity w) = true) ->
  R w (parsed tokenizer engine text tag parse entity w)
    (parsed_events tokenizer engine text tag parse entity w).
Proof.
  intros Hacc. unfold parsed, parsed_events.
  eapply R_trans; [apply R_tagged |]. apply R_step; [done |].
  intros Hon. rewrite (has_model_config _ _ _ (tagged_config text tag parse entity w)).
  by apply (enabled_has_model Parser tag parse entity).
Qed.

(** Every outcome of a call is made of these effects. *)
Lemma R_outcome (text : string) (tag parse entity merge_mwes : pyval) (w : World)
    (x : result loc * World * list event) :
  outcome text tag parse entity merge_mwes w x -> R w (world_of x) (events_of x).
Proof.
  intros Hout. destruct Hout; unfold world_of, events_of; cbn [fst snd].
  - apply R_refl.
  - apply R_refl.
  - apply R_tagged.
  - apply R_tagged.
  - rewrite <- (app_nil_r (_ ++ [EvAccess Parser])), <- app_assoc.
    eapply R_trans; [apply R_tagged |]. rewrite app_nil_r. by apply R_access_raises.
  - eapply R_trans; [by apply R_parsed |]. by apply R_access_raises.
  - eapply R_trans; [by apply R_parsed |].
    eapply R_trans; [| apply R_merge]. apply R_step; [done |].
    intros Hon. rewrite (has_model_config _ _ _ (parsed_config text tag parse entity w)).
    by apply (enabled_has_model Entity tag parse entity).
Qed.

Lemma R_do_op (o : op) (w : World) :
  R w (world_of (do_op tokenizer engine merger o w))
      (events_of (do_op tokenizer engine merger o w)).
Proof.
  destruct (do_op_effect o w) as [-> ->].
  destruct o as [s | | text tg pa en mm]; [apply R_accessor | apply R_accessor |].
  apply (R_outcome text tg pa en mm). apply call_outcome_holds.
Qed.

(** A relation that holds of the effects holds of every client program. *)
Lemma run_ops_effects (ops : list op) (w : World) :
  R w (run_ops tokenizer engine merger ops w).1 (run_ops tokenizer engine merger ops w).2.
Proof. apply run_ops_steps. apply R_do_op. Qed.

End Programs.

Lemma engines_applied_app (s : stage) (L ev : list event) :
  engines_applied s (L ++ ev) = engines_applied s L ++ engines_applied s ev.
Proof.
  induction L as [|e L IH]; [done |]. destruct e; simpl; try done.
  destruct (bool_decide _); simpl; by rewrite IH.
Qed.

Lemma all_same_slot (os : list obj) (f : option obj) :
  Forall (λ o, f = Some o) os -> all_same os = true.
Proof.
  destruct os as [|o1 os]; [done |]. intros [Ho1 Hos]%Forall_cons. simpl.
  apply forallb_forall. intros o' Hin. apply Nat.eqb_eq.
  apply list_elem_of_In in Hin. rewrite Forall_forall in Hos.
  specialize (Hos o' Hin). congruence.
Qed.

(** X8 (invariant). Whatever a client does with an instance, in whatever
    state it starts: an engine that a slot holds is never replaced or
    dropped, and every engine of a stage that a call applies to a buffer,
    like every object the property of the stage returns, is the engine
    the slot of the stage holds at the end; so a stage works with one
    engine object throughout. *)
Theorem one_engine_per_stage (s : stage) (ops : list op) (w : World) :
  let w' := (run_ops tokenizer engine merger ops w).1 in
  let L := (run_ops tokenizer engine merger ops w).2 in
  (∀ o, slot s (self_ w) = Some o -> slot s (self_ w') = Some o)
  ∧ Forall (λ o, slot s (self_ w') = Some o) (engines_applied s L ++ returns s L)
  ∧ all_same (engines_applied s L ++ returns s L) = true.
Proof.
  intros w' L.
  set (R := λ (w w' : World) (ev : list event),
         (∀ o, slot s (self_ w) = Some o -> slot s (self_ w') = Some o)
         ∧ Forall (λ o, slot s (self_ w') = Some o) (engines_applied s ev)
         ∧ Forall (λ o, slot s (self_ w') = Some o) (returns s ev)).
  assert (HR : R w w' L).
  { apply (run_ops_effects R); unfold R; clear.
    - intros w. split; [done |]. split; constructor.
    - intros w1 w2 w3 e1 e2 (Hm1 & Ha1 & Hr1) (Hm2 & Ha2 & Hr2).
      split; [auto |]. rewrite engines_applied_app, returns_app, !Forall_app.
      repeat split; try done; eapply Forall_impl; eauto.
    - intros s' w Hacc. unfold after_access, access_events.
      destruct (slot s' (self_ w)) as [o|] eqn:Hs'; simpl.
      + split; [done |]. split; [constructor |].
        destruct (bool_decide (s' = s)) eqn:Hd; [| constructor].
        apply bool_decide_eq_true in Hd. subst s'. by repeat constructor.
      + split.
        { intros o Ho. destruct (decide (s' = s)) as [-> | Hne]; [congruence |].
          by destruct s, s'. }
        split; [constructor |].
        destruct (bool_decide (s' = s)) eqn:Hd; [| constructor].
        apply bool_decide_eq_true in Hd. subst s'. repeat constructor. by destruct s.
    - intros s' w _. split; [done |]. split; constructor.
    - intros s' o l w Hslot _. simpl. split; [done |]. split; [| constructor].
      destruct (bool_decide (s' = s)) eqn:Hd; [| constructor].
      apply bool_decide_eq_true in Hd. subst s'. by repeat constructor.
    - intros text w. split; [done |]. split; constructor.
    - intros c l w. rewrite merge_world_self. split; [done |].
      destruct c; split; constructor. }
  destruct HR as (Hmono & Happ & Hret). split; [done |].
  assert (Hall : Forall (λ o, slot s (self_ w') = Some o) (engines_applied s L ++ returns s L)).
  { apply Forall_app. by split. }
  split; [done |]. by apply (all_same_slot _ (slot s (self_ w'))).
Qed.

(** X9 (invariant). No client program changes what [__init__] decided:
    the data directory, the three model flags and the merger. (A model
    installed after construction is not noticed.) *)
Theorem program_keeps_config (ops : list op) (w : World) :
  config (self_ (run_ops tokenizer engine merger ops w).1) = config (self_ w).
Proof. by destruct (run_ops_keeps tokenizer engine merger Tagger ops w) as [Hcfg _]. Qed.

Lemma stage_ran_access_events (s s' : stage) (w : World) :
  stage_ran s (access_events s' w) = false.
Proof. unfold access_events. by destruct (slot s' (self_ w)). Qed.

Lemma constructions_access_events (s s' : stage) (w : World) :
  s ≠ s' -> constructions s (access_events s' w) = 0.
Proof.
  intros Hne. unfold access_events. destruct (slot s' (self_ w)); [done |].
  unfold constructions. simpl. rewrite bool_decide_false; [done | congruence].
Qed.

(** X10 (what it never does). On an instance made with [data_dir=None],
    whatever the client does: no stage engine is ever applied to a buffer,
    and neither the parser nor the entity engine is ever constructed. *)
Theorem bare_instance_never_annotates (LOCAL_DATA_DIR : string)
    (path_exists : string -> bool) (m : obj) (h : gmap loc Tokens) (n : obj)
    (ops : list op) :
  let w0 := mkWorld (__init__ LOCAL_DATA_DIR path_exists None m) h n in
  let L := (run_ops tokenizer engine merger ops w0).2 in
  (∀ s, stage_ran s L = false)
  ∧ constructions Parser L = 0
  ∧ constructions Entity L = 0.
Proof.
  intros w0 L.
  set (bare := λ w : World, _data_dir (self_ w) = None
                            ∧ ∀ s, has_model s (self_ w) = false).
  set (R := λ (w w' : World) (ev : list event),
         config (self_ w') = config (self_ w)
         ∧ (bare w ->
            (∀ s, stage_ran s ev = false)
            ∧ ∀ s, s ≠ Tagger -> slot s (self_ w) = None ->
                   slot s (self_ w') = None ∧ constructions s ev = 0)).
  assert (Hbare : ∀ w w', config (self_ w') = config (self_ w) -> bare w -> bare w').
  { intros w w' Hcfg [Hd Hm]. split.
    - by rewrite (config_data_dir _ _ Hcfg).
    - intros s. by rewrite (has_model_config _ _ _ Hcfg). }
  assert (HR : R w0 (run_ops tokenizer engine merger ops w0).1 L).
  { apply (run_ops_effects R); unfold R; clear - Hbare.
    - intros w. split; [done |]. intros _. split; [done |]. by intros s _ Hs.
    - intros w1 w2 w3 e1 e2 [Hc1 H1] [Hc2 H2]. split; [congruence |]. intros Hb.
      destruct (H1 Hb) as [Hr1 Hs1]. destruct (H2 (Hbare _ _ Hc1 Hb)) as [Hr2 Hs2].
      split.
      + intros s. by rewrite stage_ran_app, Hr1, Hr2.
      + intros s Hne Hnone. destruct (Hs1 s Hne Hnone) as [Hn1 Hk1].
        destruct (Hs2 s Hne Hn1) as [Hn2 Hk2]. split; [done |].
        rewrite constructions_app. lia.
    - intros s' w Hacc. split; [apply after_access_config |]. intros [Hd Hm]. split.
      + intros s. apply stage_ran_access_events.
      + intros s Hne Hnone. destruct (decide (s' = s)) as [-> | Hne'].
        * exfalso. unfold can_access in Hacc. rewrite Hnone, Hd in Hacc.
          rewrite (bool_decide_false (s = Tagger)) in Hacc by done.
          by rewrite !(bool_decide_false (None ≠ None)) in Hacc by (by intros []).
        * split; [| by apply constructions_access_events].
          unfold after_access. destruct (slot s' (self_ w)); [done |].
          by destruct s, s'.
    - intros s' w _. split; [done |]. intros _. split; [done |]. by intros s _ Hs.
    - intros s' o l w _ Hmodel. split; [done |]. intros [_ Hm]. congruence.
    - intros text w. split; [done |]. intros _. split; [done |]. by intros s _ Hs.
    - intros c l w. rewrite merge_world_self. split; [done |]. intros _. split.
      + intros s. apply stage_ran_merge_events.
      + intros s _ Hs. split; [done |]. by destruct c. }
  destruct HR as [_ HR]. destruct HR as [Hran Hcon].
  { split; [done |]. by intros []. }
  split; [done |].
  split; [by destruct (Hcon Parser) | by destruct (Hcon Entity)].
Qed.

Lemma accessor_heap (s : stage) (w : World) :
  heap (world_of (accessor s w)) = heap w.
Proof.
  destruct (can_access s w) eqn:Hacc.
  - rewrite (accessor_returns s w Hacc). unfold world_of, after_access. simpl.
    by destruct (slot s (self_ w)).
  - by destruct (accessor_raises s w Hacc) as [msg ->].
Qed.

Lemma existing_not_new (w : World) (l : loc) (b : Tokens) :
  heap w !! l = Some b -> l ≠ new_buffer w.
Proof.
  intros Hl ->. apply (is_fresh (dom (heap w))). apply elem_of_dom. by eexists.
Qed.

Lemma tagged_lookup_ne (text : string) (tag parse entity : pyval) (w : World) (l : loc) :
  l ≠ new_buffer w ->
  heap (tagged tokenizer engine text tag parse entity w) !! l = heap w !! l.
Proof.
  intros Hne. unfold tagged. rewrite step_world_lookup_ne by done.
  unfold tokenized. simpl. by rewrite lookup_insert_ne.
Qed.

Lemma parsed_lookup_ne (text : string) (tag parse entity : pyval) (w : World) (l : loc) :
  l ≠ new_buffer w ->
  heap (parsed tokenizer engine text tag parse entity w) !! l = heap w !! l.
Proof.
  intros Hne. unfold parsed. rewrite step_world_lookup_ne by done.
  by apply tagged_lookup_ne.
Qed.

(** However a call ends, it leaves the buffers that exist as they are. *)
Lemma call_keeps_buffers (text : string) (tag parse entity merge_mwes : pyval) (w : World)
    (l : loc) (b : Tokens) :
  heap w !! l = Some b ->
  heap (world_of (call text tag parse entity merge_mwes w)) !! l = Some b.
Proof.
  intros Hl. pose proof (existing_not_new w l b Hl) as Hne.
  generalize (call_outcome_holds text tag parse entity merge_mwes w).
  generalize (call text tag parse entity merge_mwes w). intros x Hout.
  destruct Hout; unfold world_of; cbn [fst snd]; try done.
  - by rewrite tagged_lookup_ne.
  - by rewrite tagged_lookup_ne.
  - by rewrite tagged_lookup_ne.
  - by rewrite parsed_lookup_ne.
  - rewrite merge_world_lookup_ne by done. unfold recognized.
    rewrite step_world_lookup_ne by done. by rewrite parsed_lookup_ne.
Qed.

(** X11 (frame). A buffer, once made, is never touched again: whatever a
    client goes on to do with the instance, calls that fail included, the
    contents of a buffer that exists stay what they are. *)
Theorem program_keeps_buffers (ops : list op) (w : World) (l : loc) (b : Tokens) :
  heap w !! l = Some b ->
  heap (run_ops tokenizer engine merger ops w).1 !! l = Some b.
Proof.
  revert l b.
  apply (run_ops_steps (λ w w' _, ∀ l b, heap w !! l = Some b -> heap w' !! l = Some b)).
  - done.
  - intros w1 w2 w3 _ _ H1 H2 l b Hl. auto.
  - clear. intros o w0 l b Hl. destruct (do_op_effect o w0) as [-> _].
    destruct o as [s | | text tg pa en mm]; cbn [fst].
    + by rewrite accessor_heap.
    + by rewrite accessor_heap.
    + by apply call_keeps_buffers.
Qed.









End MoreFacts.

Lemma stage_needs_request_and_model_witness :
  (let evs := events_of (Fixture.call Fixture.sentence py_True parse_if_model_present
                           parse_if_model_present py_False Fixture.en_nlp) in
   stage_ran Parser evs || (0 <? constructions Parser evs) = true) ∧
  truthy (requested_arg Parser py_True parse_if_model_present parse_if_model_present) = true
  ∧ has_model Parser (self_ Fixture.en_nlp) = true.
Proof.
  split; [reflexivity |].
  apply (stage_needs_request_and_model Fixture.tokenizer Fixture.engine Fixture.merger Parser
           Fixture.sentence py_True parse_if_model_present parse_if_model_present py_False
           Fixture.en_nlp). reflexivity.
Defined.


Lemma model_error_after_tagging_witness :
  let w := Fixture.world (λ p, String.eqb p "/site-packages/spacy/en/data/pos") (Some "") in
  result_of (Fixture.call "Hello world." py_True py_True parse_if_model_present py_False w)
  = Raise (IOError msg_no_parser) ∧
  let r := Fixture.call "Hello world." py_True py_True parse_if_model_present py_False w in
  let tagging := truthy py_True && has_tagger_model (self_ w) in
  (new_buffer w ∉ dom (heap w))
  ∧ heap (world_of r) !! new_buffer w
    = Some (applied tagging (Fixture.engine Tagger) (Fixture.tokenizer "Hello world."))
  ∧ buffer_ops (events_of r) = BTokenize :: (if tagging then [BRun Tagger] else []).
Proof.
  intros w. split; [vm_compute; reflexivity |].
  apply (model_error_after_tagging Fixture.tokenizer Fixture.engine Fixture.merger
           "Hello world." py_True py_True parse_if_model_present py_False w msg_no_parser).
  vm_compute. reflexivity.
Defined.

Lemma call_denotation_witness :
  result_of (Fixture.call Fixture.sentence py_True parse_if_model_present
               parse_if_model_present py_False Fixture.parser_only_nlp) = Ok 1%positive ∧
  let r := Fixture.call Fixture.sentence py_True parse_if_model_present
             parse_if_model_present py_False Fixture.parser_only_nlp in
  let on s := enabled s py_True parse_if_model_present parse_if_model_present
                (self_ Fixture.parser_only_nlp) in
  heap (world_of r) !! 1%positive
  = Some (applied (merging py_False (self_ Fixture.parser_only_nlp)) Fixture.merger
            (applied (on Entity) (Fixture.engine Entity)
               (applied (on Parser) (Fixture.engine Parser)
                  (applied (on Tagger) (Fixture.engine Tagger)
                     (Fixture.tokenizer Fixture.sentence)))))
  ∧ (∀ s, stage_ran s (events_of r) = on s)
  ∧ buffer_ops (events_of r)
    = BTokenize :: (if on Tagger then [BRun Tagger] else [])
      ++ (if on Parser then [BRun Parser] else [])
      ++ (if on Entity then [BRun Entity] else [])
      ++ (if merging py_False (self_ Fixture.parser_only_nlp) then [BMerge] else []).
Proof.
  split; [vm_compute; reflexivity |].
  apply (call_denotation Fixture.tokenizer Fixture.engine Fixture.merger Fixture.sentence
           py_True parse_if_model_present parse_if_model_present py_False
           Fixture.parser_only_nlp 1%positive).
  vm_compute. reflexivity.
Defined.

Lemma falsy_tag_parses_untagged_witness :
  truthy PyNone = false ∧
  py_eq PyNone py_False = false ∧
  truthy py_True = true ∧
  has_parser_model (self_ Fixture.en_nlp) = true ∧
  result_of (Fixture.call Fixture.sentence PyNone py_True parse_if_model_present py_False
               Fixture.en_nlp) = Ok 1%positive ∧
  let r := Fixture.call Fixture.sentence PyNone py_True parse_if_model_present py_False
             Fixture.en_nlp in
  stage_ran Tagger (events_of r) = false
  ∧ stage_ran Parser (events_of r) = true
  ∧ heap (world_of r) !! 1%positive
    = Some (applied (merging py_False (self_ Fixture.en_nlp)) Fixture.merger
              (applied (enabled Entity PyNone py_True parse_if_model_present
                          (self_ Fixture.en_nlp)) (Fixture.engine Entity)
                 (Fixture.engine Parser (Fixture.tokenizer Fixture.sentence)))).
Proof.
  do 4 (split; [reflexivity |]). split; [vm_compute; reflexivity |].
  apply (falsy_tag_parses_untagged Fixture.tokenizer Fixture.engine Fixture.merger
           Fixture.sentence PyNone py_True parse_if_model_present py_False Fixture.en_nlp
           1%positive); [reflexivity | reflexivity | reflexivity | reflexivity |].
  vm_compute. reflexivity.
Defined.

Lemma parser_error_reported_first_witness :
  py_eq py_True py_True = true ∧
  (py_eq py_False py_False = true ∨ has_parser_model (self_ Fixture.bare_nlp) = false) ∧
  result_of (Fixture.call Fixture.sentence py_False py_True py_True py_False Fixture.bare_nlp)
  = Raise (if py_eq py_False py_False then ValueError msg_tag_parse
           else IOError msg_no_parser).
Proof.
  split; [reflexivity |]. split; [left; reflexivity |].
  apply (parser_error_reported_first Fixture.tokenizer Fixture.engine Fixture.merger);
    [reflexivity | left; reflexivity].
Defined.

Lemma program_keeps_buffers_witness :
  let w := world_of (Fixture.call "First." py_True parse_if_model_present
                       parse_if_model_present py_False Fixture.en_nlp) in
  let b := Fixture.engine Entity (Fixture.engine Parser (Fixture.engine Tagger
             (Fixture.tokenizer "First."))) in
  let ops := [OpCall "Second one." py_True parse_if_model_present parse_if_model_present
                py_False;
              OpCall "Third." py_True py_True py_True (PyInt 1);
              OpGet Parser] in
  heap w !! 1%positive = Some b ∧
  heap (run_ops Fixture.tokenizer Fixture.engine Fixture.merger ops w).1 !! 1%positive
  = Some b.
Proof.
  intros w b ops. split; [vm_compute; reflexivity |].
  apply (program_keeps_buffers Fixture.tokenizer Fixture.engine Fixture.merger ops w
           1%positive b).
  vm_compute. reflexivity.
Defined.

